(** * align-ai-news: the caption wrapper and the ephemeral image store

    A shallow embedding of [app.py]: the greedy text wrapper [wrap_text],
    the in-memory store [EPHEMERAL_STORE] with its sweep
    [cleanup_ephemeral_store], and the two handlers [edit_image] and
    [temp_image].

    Modelling conventions.
    - A Python [str] is a [string]; each [ascii] stands for the code point
      of the same number, so the alphabet is the 8-bit range.
    - Pixel widths are integers ([Z]).
    - A clock reading is a Python [float], a finite binary64 value. Every
      such value is a whole number of ticks of 2^-1074 seconds, so a
      reading is the integer ([Z]) that counts its ticks; the order of
      the readings is the order of the integers, and the sum of two
      floats is the exact sum rounded to 53 significant bits.
    - The dictionary [EPHEMERAL_STORE] is a [gmap string entry]; the
      global is threaded explicitly through every operation.
    - [uuid.uuid4()], [time.time()] and the network and imaging calls are
      collaborators: their results are arguments of the handlers. *)

From Stdlib Require Import ZArith Lia List Ascii String Bool.
From stdpp Require Import gmap strings list fin_maps.

Local Open Scope string_scope.
Local Open Scope Z_scope.

(** ** Strings as Python sees them *)

Module Str.

(** [str.isspace] on one character, restricted to code points below 256:
    TAB..CR, FS..US, SPACE, NEL and NBSP. *)
Definition isspace (c : ascii) : bool :=
  let n := N_of_ascii c in
  ((9 <=? n) && (n <=? 13) || (28 <=? n) && (n <=? 32)
   || (n =? 133) || (n =? 160))%N.

(** Some character of [s] is whitespace. *)
Fixpoint has_space (s : string) : bool :=
  match s with
  | EmptyString => false
  | String c rest => isspace c || has_space rest
  end.

(** Every character of [s] is whitespace (true of the empty string). *)
Fixpoint all_space (s : string) : bool :=
  match s with
  | EmptyString => true
  | String c rest => isspace c && all_space rest
  end.

(** The run collected so far becomes a token unless it is empty. *)
Definition close_token (cur : string) : list string :=
  match cur with
  | EmptyString => []
  | _ => [cur]
  end.

(** [str.split()] without arguments: runs of whitespace separate the
    tokens and never produce an empty one. [cur] is the run of
    non-whitespace characters read since the last separator. *)
Fixpoint split_from (cur : string) (s : string) : list string :=
  match s with
  | EmptyString => close_token cur
  | String c rest =>
      if isspace c then close_token cur ++ split_from "" rest
      else split_from (cur +:+ String c "") rest
  end.

Definition split (s : string) : list string := split_from "" s.

(** [sep.join(parts)]. *)
Fixpoint join (sep : string) (parts : list string) : string :=
  match parts with
  | [] => ""
  | x :: rest =>
      match rest with
      | [] => x
      | _ :: _ => x +:+ sep +:+ join sep rest
      end
  end.

(** [len(s)] as an integer. *)
Definition len (s : string) : Z := Z.of_nat (String.length s).

(** A word: non-empty and free of whitespace. *)
Definition is_word (w : string) : bool :=
  negb (String.eqb w "") && negb (has_space w).

(** The first character, when there is one. *)
Definition first_char (s : string) : option ascii :=
  match s with
  | EmptyString => None
  | String c _ => Some c
  end.

(** The last character, when there is one. *)
Fixpoint last_char (s : string) : option ascii :=
  match s with
  | EmptyString => None
  | String c rest =>
      match rest with
      | EmptyString => Some c
      | String _ _ => last_char rest
      end
  end.

(** Two adjacent whitespace characters occur in [s]. *)
Fixpoint double_space (s : string) : bool :=
  match s with
  | EmptyString => false
  | String a rest =>
      match rest with
      | EmptyString => false
      | String b _ => (isspace a && isspace b) || double_space rest
      end
  end.

Definition starts_clean (s : string) : bool :=
  match first_char s with
  | Some c => negb (isspace c)
  | None => false
  end.

Definition ends_clean (s : string) : bool :=
  match last_char s with
  | Some c => negb (isspace c)
  | None => false
  end.

End Str.

(** ** The text wrapper *)

Module Wrap.
Import Str.

Section Wrapper.

(** [measure s] is the width [w] that
    [draw.textbbox((0, 0), s, font=font)[2:]] yields for [s]. *)
Variable measure : string -> Z.
Variable max_width : Z.

(** The body of [for word in words[1:]], followed by the final
    [lines.append(current_line)]. *)
Fixpoint wrap_loop (words : list string) (current_line : string)
    (lines : list string) : list string :=
  match words with
  | [] => lines ++ [current_line]
  | word :: rest =>
      let test_line := current_line +:+ " " +:+ word in
      if measure test_line <=? max_width
      then wrap_loop rest test_line lines
      else wrap_loop rest word (lines ++ [current_line])
  end.

Definition wrap_text (text : string) : list string :=
  match split text with
  | [] => [""]
  | first :: rest => wrap_loop rest first []
  end.

(** The bound of the width contract for one output line: it fits, or it
    is one single word that is itself too wide. *)
Definition line_within (line : string) : Prop :=
  measure line <= max_width \/ (split line = [line] /\ max_width < measure line).

(** A group of words that makes up one line: it is not empty, and when
    it holds two words or more the line was measured and fitted. *)
Definition fitted (g : list string) : Prop :=
  g <> [] /\ ((2 <= length g)%nat -> measure (join " " g) <= max_width).

(** Every tentative line on the way to [g] was measured and fitted: the
    first two words, the first three, and so on up to all of [g]. *)
Definition grown (g : list string) : Prop :=
  forall k, (2 <= k <= length g)%nat -> measure (join " " (take k g)) <= max_width.

(** Groups in which each one was closed because the first word of the
    next did not fit behind it. *)
Inductive packed : list (list string) -> Prop :=
| packed_last g : packed [g]
| packed_next g w g' gs :
    max_width < measure (join " " g +:+ " " +:+ w) ->
    packed ((w :: g') :: gs) ->
    packed (g :: (w :: g') :: gs).

End Wrapper.

End Wrap.

(** ** Clock readings: binary64 values counted in ticks *)

Module Clock.

(** One second is [2^1074] ticks; a tick is the smallest positive
    binary64 value. *)
Definition ticks_per_second : Z := 2 ^ 1074.

(** The reading of a whole number of seconds. *)
Definition seconds (n : Z) : Z := n * ticks_per_second.

(** The reading of [m * 2^e] seconds, for [e] down to [-1074]. *)
Definition dyadic (m e : Z) : Z := m * 2 ^ (1074 + e).

(** The multiple of [2^shift] nearest to [x], the even multiple when two
    are equally near; for [0 <= x] and [1 <= shift]. *)
Definition round_to (shift x : Z) : Z :=
  let unit := 2 ^ shift in
  let half := 2 ^ (shift - 1) in
  let q := x / unit in
  let r := x mod unit in
  if r <? half then q * unit
  else if half <? r then (q + 1) * unit
  else if Z.even q then q * unit else (q + 1) * unit.

(** Rounding of a magnitude to 53 significant bits: a count of at most 53
    bits is kept, a longer one loses the bits below its leading 53. *)
Definition round_magnitude (x : Z) : Z :=
  let shift := Z.log2 x - 52 in
  if shift <=? 0 then x else round_to shift x.

(** Rounding to the nearest binary64 value, ties to even. *)
Definition round64 (x : Z) : Z :=
  if x <? 0 then - round_magnitude (- x) else round_magnitude x.

(** The tick count is that of a binary64 value. *)
Definition is_float (x : Z) : bool := round64 x =? x.

(** [x + y] on floats. *)
Definition float_add (x y : Z) : Z := round64 (x + y).

(** Settle a comparison or an equation between closed readings. *)
Ltac by_ticks :=
  vm_compute;
  first [ reflexivity | discriminate
        | let H := fresh in intros H; discriminate H ].

End Clock.

(** ** The ephemeral store *)

Module Store.
Import Clock.

(** Lifetime in seconds. *)
Definition IMAGE_LIFETIME : Z := 60.

(** Python [bytes]. *)
Definition bytes : Type := list Byte.byte.

(** The dictionary [{"data": ..., "expires_at": ...}] kept per image. *)
Record entry : Type := Entry {
  data : bytes;
  expires_at : Z
}.

(** What a handler hands back to the server. *)
Inductive response : Type :=
| Jsonify (status : Z) (fields : list (string * string))
| SendFile (body : bytes) (mimetype : string)
| Abort (status : Z) (description : string).

(** [EPHEMERAL_STORE[image_id] = {"data": ..., "expires_at": now + IMAGE_LIFETIME}]
    where [now] is the reading of [time.time()]. The sum is a float sum:
    the integer [IMAGE_LIFETIME] enters it as the float 60.0. An entry
    already under [image_id] is replaced, as a dictionary assignment
    does. *)
Definition store_image (image_id : string) (payload : bytes) (now : Z)
    (store : gmap string entry) : gmap string entry :=
  <[image_id := {| data := payload;
                   expires_at := float_add now (seconds IMAGE_LIFETIME) |}]> store.

(** The list comprehension of [cleanup_ephemeral_store]. *)
Definition expired_keys (now : Z) (store : gmap string entry) : list string :=
  map fst (List.filter (fun kv => now >? expires_at (snd kv)) (map_to_list store)).

(** [for key in expired_keys: EPHEMERAL_STORE.pop(key, None)]. *)
Definition pop_all (keys : list string) (store : gmap string entry)
    : gmap string entry :=
  fold_left (fun acc key => delete key acc) keys store.

Definition cleanup_ephemeral_store (now : Z) (store : gmap string entry)
    : gmap string entry :=
  pop_all (expired_keys now store) store.

(** [temp_image] reads the clock twice: [now_sweep] inside
    [cleanup_ephemeral_store] and [now_check] in the check of its own. *)
Definition temp_image (image_id : string) (now_sweep now_check : Z)
    (store : gmap string entry) : response * gmap string entry :=
  let store := cleanup_ephemeral_store now_sweep store in
  match store !! image_id with
  | None => (Abort 404 "Image not found or expired", store)
  | Some image_entry =>
      if now_check >? expires_at image_entry
      then (Abort 404 "Image has expired", delete image_id store)
      else (SendFile (data image_entry) "image/jpeg", store)
  end.

(** The response is a 404. *)
Definition not_found (r : response) : bool :=
  match r with
  | Abort 404 _ => true
  | _ => false
  end.

(** Decide a boolean expiry comparison and let [lia] discard the
    impossible side. *)
Ltac expiry_cases :=
  match goal with
  | |- context [ ?now >? expires_at ?e ] =>
      let E := fresh "E" in
      destruct (now >? expires_at e) eqn:E; try reflexivity; try lia
  end.

End Store.

(** ** The generate handler *)

Module Handler.
Import Str Clock Store.

(** A computation that may raise; [Raise msg] carries [str(e)]. *)
Inductive result (A : Type) : Type :=
| Raise (msg : string)
| Return (a : A).
Arguments Raise {A} msg.
Arguments Return {A} a.

Global Instance result_ret : MRet result := fun A a => Return a.

Global Instance result_bind : MBind result := fun A B k m =>
  match m with
  | Raise msg => Raise msg
  | Return a => k a
  end.

Definition DEFAULT_LOGO_URL : string := "https://i.postimg.cc/pTTvjx8r/Group-143.png".
Definition FONT_PATH : string := "InterTight-Bold.ttf".

(** The keys read from the JSON body, each holding a string; [None] is an
    absent key. A body that is no JSON object at all makes [get_json], or
    the first [data.get], raise. *)
Record json_body : Type := JsonBody {
  image_url : option string;
  text : option string;
  logo_url : option string
}.

Record request : Type := Request {
  get_json : result json_body;
  host_url : string
}.

(** The network and imaging libraries, as far as [edit_image] uses them. *)
Record collaborators : Type := Collaborators {
  image : Type;
  font : Type;
  (** [requests.get(url).content] *)
  requests_get : option string -> result bytes;
  (** [Image.open(BytesIO(content)).convert(mode)] *)
  image_open : bytes -> string -> result image;
  (** [img.resize(size, Image.LANCZOS)] *)
  resize : image -> Z * Z -> image;
  (** the gradient overlay of the lower [gradient_height] rows *)
  darken_footer : image -> Z -> image;
  (** [img.paste(logo, position, logo)] *)
  paste : image -> image -> Z * Z -> image;
  (** [ImageFont.truetype(path, size)] *)
  truetype : string -> Z -> result font;
  (** [draw.textbbox((0, 0), s, font=font)[2:]] *)
  textbbox : font -> string -> Z * Z;
  (** [draw.text(position, line, font=font, fill=white)] *)
  draw_text : image -> Z * Z -> string -> font -> image;
  (** [img.convert("RGB").save(output, format="JPEG", quality=q)] *)
  save_jpeg : image -> Z -> bytes;
  (** [str.upper] *)
  upper : string -> string
}.

(** [s.rstrip(ch)] for a single character. *)
Fixpoint rstrip (ch : ascii) (s : string) : string :=
  match s with
  | EmptyString => ""
  | String c rest =>
      match rstrip ch rest with
      | EmptyString => if Ascii.eqb c ch then "" else String c ""
      | kept => String c kept
      end
  end.

(** [n] copies of [ch]. *)
Fixpoint repeat_char (ch : ascii) (n : nat) : string :=
  match n with
  | O => ""
  | S n' => String ch (repeat_char ch n')
  end.

(** Where the drawing loop puts each line: the value of
    [(text_x, current_y)] at the call of [draw.text] for that line. *)
Fixpoint line_positions (lines : list string) (text_x current_y line_height : Z)
    : list (Z * Z * string) :=
  match lines with
  | [] => []
  | line :: rest =>
      (text_x, current_y, line)
        :: line_positions rest text_x (current_y + line_height) line_height
  end.

Section Generate.

Variable env : collaborators.

(** The loop [for line in lines: draw.text(...); current_y += line_height]. *)
Fixpoint draw_lines (img : image env) (fnt : font env) (lines : list string)
    (text_x current_y line_height : Z) : image env :=
  match lines with
  | [] => img
  | line :: rest =>
      draw_lines (draw_text env img (text_x, current_y) line fnt) fnt rest
        text_x (current_y + line_height) line_height
  end.

(** The body of the [try] up to [output.seek(0)]: the canvas is 1080 by
    1350, so [int(img.height * 0.6)] is 810 and [int(img.width * 0.85)]
    is 918. *)
Definition render (req : request) : result bytes :=
  body ← get_json req;
  let caption := upper env (default "Default Text" (text body)) in
  let logo_src := default DEFAULT_LOGO_URL (logo_url body) in
  content ← requests_get env (image_url body);
  img ← image_open env content "RGB";
  let img := resize env img (1080, 1350) in
  logo_content ← requests_get env (Some logo_src);
  logo ← image_open env logo_content "RGBA";
  let logo := resize env logo (185, 58) in
  let gradient_height := 810 in
  let img := darken_footer env img gradient_height in
  let logo_padding := 40 in
  let img := paste env img logo (logo_padding, logo_padding) in
  let font_size := 80 in
  fnt ← truetype env FONT_PATH font_size;
  let max_text_width := 918 in
  let lines := Wrap.wrap_text (fun s => fst (textbbox env fnt s))
                 max_text_width caption in
  let line_height := snd (textbbox env fnt "Ay") in
  let num_lines := Z.of_nat (length lines) in
  let text_padding := 50 in
  let bottom_padding := 120 in
  let total_text_height := line_height * num_lines in
  let bottom_line_y := 1350 - bottom_padding - total_text_height in
  let img := draw_lines img fnt lines text_padding bottom_line_y line_height in
  Return (save_jpeg env img 90).

(** [image_id] is the value of [str(uuid.uuid4())] and [now] the reading
    of [time.time()]; both are consulted on the success path only. *)
Definition edit_image (req : request) (image_id : string) (now : Z)
    (store : gmap string entry) : response * gmap string entry :=
  match render req with
  | Return output =>
      let store := store_image image_id output now store in
      let temp_url := rstrip "/" (host_url req) +:+ "/temp_image/" +:+ image_id in
      (Jsonify 200 [("message", "Image generated successfully");
                    ("temp_image_url", temp_url)], store)
  | Raise msg => (Jsonify 400 [("error", msg)], store)
  end.

(** A step of [render] raises [msg] after every earlier step went
    through: reading the body, fetching the base image, decoding it,
    fetching the logo, decoding it, loading the font. *)
Inductive raises (req : request) (msg : string) : Prop :=
| raises_body :
    get_json req = Raise msg -> raises req msg
| raises_fetch_image body :
    get_json req = Return body ->
    requests_get env (image_url body) = Raise msg -> raises req msg
| raises_decode_image body content :
    get_json req = Return body ->
    requests_get env (image_url body) = Return content ->
    image_open env content "RGB" = Raise msg -> raises req msg
| raises_fetch_logo body content img :
    get_json req = Return body ->
    requests_get env (image_url body) = Return content ->
    image_open env content "RGB" = Return img ->
    requests_get env (Some (default DEFAULT_LOGO_URL (logo_url body))) = Raise msg ->
    raises req msg
| raises_decode_logo body content img logo_content :
    get_json req = Return body ->
    requests_get env (image_url body) = Return content ->
    image_open env content "RGB" = Return img ->
    requests_get env (Some (default DEFAULT_LOGO_URL (logo_url body)))
      = Return logo_content ->
    image_open env logo_content "RGBA" = Raise msg -> raises req msg
| raises_load_font body content img logo_content logo :
    get_json req = Return body ->
    requests_get env (image_url body) = Return content ->
    image_open env content "RGB" = Return img ->
    requests_get env (Some (default DEFAULT_LOGO_URL (logo_url body)))
      = Return logo_content ->
    image_open env logo_content "RGBA" = Return logo ->
    truetype env FONT_PATH 80 = Raise msg -> raises req msg.

(** *** Runs of the server *)

(** One request served, with the values the clock and the identifier
    generator gave it. [Sweep] is a bare call of
    [cleanup_ephemeral_store]. *)
Inductive event : Type :=
| Generate (req : request) (image_id : string) (now : Z)
| Fetch (image_id : string) (now_sweep now_check : Z)
| Sweep (now : Z).

(** The store together with a ghost record of when the image under each
    identifier was last stored. *)
Record state : Type := State {
  cells : gmap string entry;
  inserted_at : gmap string Z
}.

Definition initial : state := {| cells := ∅; inserted_at := ∅ |}.

Definition step (ev : event) (st : state) : state :=
  match ev with
  | Generate req image_id now =>
      {| cells := snd (edit_image req image_id now (cells st));
         inserted_at :=
           match render req with
           | Return _ => <[image_id := now]> (inserted_at st)
           | Raise _ => inserted_at st
           end |}
  | Fetch image_id now_sweep now_check =>
      {| cells := snd (temp_image image_id now_sweep now_check (cells st));
         inserted_at := inserted_at st |}
  | Sweep now =>
      {| cells := cleanup_ephemeral_store now (cells st);
         inserted_at := inserted_at st |}
  end.

Definition run (evs : list event) (st : state) : state :=
  fold_left (fun acc ev => step ev acc) evs st.

Inductive reachable : state -> Prop :=
| reachable_initial : reachable initial
| reachable_step ev st : reachable st -> reachable (step ev st).

(** Every entry carries the time of its insertion plus the lifetime. *)
Definition dated (st : state) : Prop :=
  forall k e, cells st !! k = Some e ->
    exists t, inserted_at st !! k = Some t
              /\ expires_at e = float_add t (seconds IMAGE_LIFETIME).

(** An event that cannot take the entry under [image_id] away before
    [deadline]: it stores under another identifier, or it looks at the
    clock no later than [deadline]. *)
Definition quiet (image_id : string) (deadline : Z) (ev : event) : Prop :=
  match ev with
  | Generate _ other _ => other <> image_id
  | Fetch other now_sweep now_check =>
      now_sweep <= deadline /\ (other = image_id -> now_check <= deadline)
  | Sweep now => now <= deadline
  end.

(** Every clock reading of the event is a float. *)
Definition float_readings (ev : event) : Prop :=
  match ev with
  | Generate _ _ now => is_float now = true
  | Fetch _ now_sweep now_check => is_float now_sweep = true /\ is_float now_check = true
  | Sweep now => is_float now = true
  end.

(** The event is a generate request with this identifier. *)
Definition stores_under (ev : event) (image_id : string) : Prop :=
  match ev with
  | Generate _ other _ => other = image_id
  | _ => False
  end.

(** The identifier an event stores under is not in use: what
    [uuid.uuid4()] is relied on for. *)
Definition fresh_id (ev : event) (store : gmap string entry) : Prop :=
  match ev with
  | Generate _ image_id _ => store !! image_id = None
  | _ => True
  end.

End Generate.

(** Collaborators for closed examples: the network is down. *)
Definition offline : collaborators := {|
  image := unit;
  font := unit;
  requests_get := fun _ => Raise "Connection refused";
  image_open := fun _ _ => Return tt;
  resize := fun img _ => img;
  darken_footer := fun img _ => img;
  paste := fun img _ _ => img;
  truetype := fun _ _ => Return tt;
  textbbox := fun _ s => (Str.len s * 10, 80);
  draw_text := fun img _ _ _ => img;
  save_jpeg := fun _ _ => [];
  upper := fun s => s
|}.

(** Collaborators for closed examples: every call succeeds. *)
Definition online : collaborators := {|
  image := unit;
  font := unit;
  requests_get := fun _ => Return [];
  image_open := fun _ _ => Return tt;
  resize := fun img _ => img;
  darken_footer := fun img _ => img;
  paste := fun img _ _ => img;
  truetype := fun _ _ => Return tt;
  textbbox := fun _ s => (Str.len s * 10, 80);
  draw_text := fun img _ _ _ => img;
  save_jpeg := fun _ _ => [Byte.x58];
  upper := fun s => s
|}.

(** Collaborators for closed examples: the fetch raises an exception that
    carries no message, as [MemoryError()] does. *)
Definition silent : collaborators := {|
  image := unit;
  font := unit;
  requests_get := fun _ => Raise "";
  image_open := fun _ _ => Return tt;
  resize := fun img _ => img;
  darken_footer := fun img _ => img;
  paste := fun img _ _ => img;
  truetype := fun _ _ => Return tt;
  textbbox := fun _ s => (Str.len s * 10, 80);
  draw_text := fun img _ _ _ => img;
  save_jpeg := fun _ _ => [];
  upper := fun s => s
|}.

(** Collaborators for closed examples: an image is the list of the texts
    drawn on it, with their positions. *)
Definition recording : collaborators := {|
  image := list (Z * Z * string);
  font := unit;
  requests_get := fun _ => Return [];
  image_open := fun _ _ => Return [];
  resize := fun img _ => img;
  darken_footer := fun img _ => img;
  paste := fun img _ _ => img;
  truetype := fun _ _ => Return tt;
  textbbox := fun _ s => (Str.len s * 10, 80);
  draw_text := fun img pos line _ => (img ++ [(fst pos, snd pos, line)])%list;
  save_jpeg := fun _ _ => [];
  upper := fun s => s
|}.

End Handler.

(** ** Facts about splitting and joining *)

Module StrFacts.
Import Str.

Lemma app_cons (c : ascii) (s t : string) : String c s +:+ t = String c (s +:+ t).
Proof. reflexivity. Qed.

Lemma app_empty_r (s : string) : s +:+ "" = s.
Proof.
  induction s as [|c s IH]; [reflexivity|].
  now rewrite app_cons, IH.
Qed.

Lemma app_assoc (s1 s2 s3 : string) : (s1 +:+ s2) +:+ s3 = s1 +:+ (s2 +:+ s3).
Proof.
  induction s1 as [|c s1 IH]; [reflexivity|].
  now rewrite !app_cons, IH.
Qed.

Lemma has_space_app (s1 s2 : string) :
  has_space (s1 +:+ s2) = has_space s1 || has_space s2.
Proof.
  induction s1 as [|c s1 IH]; [reflexivity|].
  rewrite app_cons. cbn [has_space]. now rewrite IH, orb_assoc.
Qed.

Lemma is_word_spec (w : string) :
  is_word w = true <-> w <> "" /\ has_space w = false.
Proof.
  unfold is_word. rewrite andb_true_iff, !negb_true_iff, String.eqb_neq.
  reflexivity.
Qed.

Lemma close_token_word (cur : string) :
  has_space cur = false -> Forall (fun w => is_word w = true) (close_token cur).
Proof.
  intros Hcur. destruct cur as [|c cur]; cbn; [constructor|].
  constructor; [|constructor]. apply is_word_spec. split; [discriminate | exact Hcur].
Qed.

(** Reading a whitespace-free piece only extends the current run. *)
Lemma split_from_app_word (w : string) : forall cur s,
  has_space w = false -> split_from cur (w +:+ s) = split_from (cur +:+ w) s.
Proof.
  induction w as [|c w IH]; intros cur s Hw.
  - now rewrite app_empty_r.
  - cbn in Hw. apply orb_false_iff in Hw as [Hc Hw].
    rewrite app_cons. cbn [split_from]. rewrite Hc, IH by exact Hw.
    now rewrite app_assoc.
Qed.

Lemma split_from_space (cur s : string) :
  split_from cur (" " +:+ s) = (close_token cur ++ split_from "" s)%list.
Proof. reflexivity. Qed.

(** Everything [split] returns is a word. *)
Lemma split_from_words (s : string) : forall cur,
  has_space cur = false -> Forall (fun w => is_word w = true) (split_from cur s).
Proof.
  induction s as [|c s IH]; intros cur Hcur; cbn.
  - now apply close_token_word.
  - destruct (isspace c) eqn:Hc.
    + apply Forall_app. split; [now apply close_token_word | now apply IH].
    + apply IH. rewrite has_space_app. cbn. now rewrite Hcur, Hc.
Qed.

Lemma split_words (s : string) : Forall (fun w => is_word w = true) (split s).
Proof. now apply split_from_words. Qed.

Lemma all_space_split (s : string) : all_space s = true -> split s = [].
Proof.
  unfold split. induction s as [|c s IH]; cbn; [reflexivity|].
  intros [Hc Hs]%andb_true_iff. rewrite Hc. now apply IH.
Qed.

Lemma split_from_nonempty (s : string) : forall cur,
  cur <> "" -> split_from cur s <> [].
Proof.
  induction s as [|c s IH]; intros cur Hcur; cbn.
  - destruct cur; [congruence | discriminate].
  - destruct (isspace c).
    + destruct cur; [congruence | discriminate].
    + apply IH. destruct cur; discriminate.
Qed.

(** No token at all is the same as nothing but whitespace. *)
Lemma split_nil_iff (s : string) : split s = [] <-> all_space s = true.
Proof.
  split; [|apply all_space_split].
  unfold split. induction s as [|c s IH]; cbn; [reflexivity|].
  destruct (isspace c); cbn; [exact IH|].
  intros Hnil. now apply split_from_nonempty in Hnil.
Qed.

(** *** Joining *)

Lemma join_cons2 (sep x y : string) (rest : list string) :
  join sep (x :: y :: rest) = x +:+ sep +:+ join sep (y :: rest).
Proof. reflexivity. Qed.

Lemma join_app (sep : string) (g1 g2 : list string) :
  g1 <> [] -> g2 <> [] ->
  join sep (g1 ++ g2)%list = join sep g1 +:+ sep +:+ join sep g2.
Proof.
  intros Hg1 Hg2. induction g1 as [|x g1 IH]; [congruence|].
  destruct g1 as [|y g1].
  - destruct g2 as [|z g2]; [congruence | reflexivity].
  - change (join sep ((x :: y :: g1) ++ g2)%list)
      with (x +:+ sep +:+ join sep ((y :: g1) ++ g2)%list).
    rewrite IH by discriminate. rewrite join_cons2.
    now rewrite !app_assoc.
Qed.

Lemma join_snoc (sep w : string) (g : list string) :
  g <> [] -> join sep (g ++ [w])%list = join sep g +:+ sep +:+ w.
Proof. intros Hg. now rewrite join_app. Qed.

(** Joining the joined groups is joining all the parts. *)
Lemma join_concat (sep : string) (gs : list (list string)) :
  Forall (fun g => g <> []) gs ->
  join sep (map (join sep) gs) = join sep (concat gs).
Proof.
  induction 1 as [|g gs Hg Hgs IH]; [reflexivity|].
  destruct gs as [|g' gs].
  - cbn. now rewrite app_nil_r.
  - change (join sep (map (join sep) (g :: g' :: gs)))
      with (join sep g +:+ sep +:+ join sep (map (join sep) (g' :: gs))).
    rewrite IH. change (concat (g :: g' :: gs)) with (g ++ concat (g' :: gs))%list.
    rewrite join_app; [reflexivity | exact Hg |].
    inversion Hgs as [|? ? Hg' _]; subst. cbn. destruct g'; [congruence | discriminate].
Qed.

(** Splitting undoes joining words with one space. *)
Lemma split_join (ws : list string) :
  Forall (fun w => is_word w = true) ws -> split (join " " ws) = ws.
Proof.
  unfold split. induction 1 as [|w ws Hw Hws IH]; [reflexivity|].
  apply is_word_spec in Hw as [Hne Hw].
  destruct ws as [|w' ws].
  - cbn [join]. rewrite <- (app_empty_r w) at 1.
    rewrite split_from_app_word by exact Hw. cbn.
    destruct w; [congruence | reflexivity].
  - rewrite join_cons2, split_from_app_word by exact Hw.
    change ("" +:+ w) with w. rewrite split_from_space, IH.
    destruct w; [congruence | reflexivity].
Qed.

(** *** The shape of a line of words *)

Lemma first_char_app (s t : string) :
  s <> "" -> first_char (s +:+ t) = first_char s.
Proof. destruct s; [congruence | reflexivity]. Qed.

Lemma last_char_app (s t : string) :
  t <> "" -> last_char (s +:+ t) = last_char t.
Proof.
  intros Ht. induction s as [|c s IH]; [reflexivity|].
  rewrite app_cons. cbn [last_char]. rewrite IH.
  destruct (s +:+ t) eqn:E; [|reflexivity].
  destruct s; [change (t = "") in E; congruence | rewrite app_cons in E; discriminate].
Qed.

Lemma word_starts_clean (w : string) : is_word w = true -> starts_clean w = true.
Proof.
  intros [Hne Hw]%is_word_spec. destruct w as [|c w]; [congruence|].
  cbn in Hw. apply orb_false_iff in Hw as [Hc _].
  unfold starts_clean. cbn. now rewrite Hc.
Qed.

Lemma word_ends_clean (w : string) : is_word w = true -> ends_clean w = true.
Proof.
  intros [Hne Hw]%is_word_spec. unfold ends_clean.
  induction w as [|c w IH]; [congruence|].
  cbn in Hw. apply orb_false_iff in Hw as [Hc Hw].
  destruct w as [|d w]; [cbn; now rewrite Hc|].
  cbn [last_char]. apply IH; [discriminate | exact Hw].
Qed.

Lemma double_space_cons2 (a b : ascii) (rest : string) :
  double_space (String a (String b rest))
  = (isspace a && isspace b) || double_space (String b rest).
Proof. reflexivity. Qed.

Lemma word_no_double_space (w : string) : has_space w = false -> double_space w = false.
Proof.
  induction w as [|c w IH]; [reflexivity|]. cbn [has_space].
  intros [Hc Hw]%orb_false_iff. destruct w as [|d w]; [reflexivity|].
  now rewrite double_space_cons2, Hc, IH.
Qed.

(** A word, one separator, then a clean line: still no doubled space. *)
Lemma double_space_word_sep (w line : string) :
  has_space w = false -> starts_clean line = true -> double_space line = false ->
  double_space (w +:+ " " +:+ line) = false.
Proof.
  intros Hw Hstart Hline. induction w as [|c w IH].
  - destruct line as [|d line]; [discriminate|].
    unfold starts_clean in Hstart. cbn in Hstart.
    apply negb_true_iff in Hstart.
    change ("" +:+ " " +:+ String d line) with (String " " (String d line)).
    now rewrite double_space_cons2, Hstart, Hline, andb_false_r.
  - cbn [has_space] in Hw. apply orb_false_iff in Hw as [Hc Hw].
    rewrite app_cons.
    destruct (w +:+ " " +:+ line) eqn:E; [reflexivity|].
    now rewrite double_space_cons2, (IH Hw), Hc.
Qed.

Lemma join_words_nonempty (g : list string) :
  g <> [] -> Forall (fun w => is_word w = true) g -> join " " g <> "".
Proof.
  intros Hg Hws. destruct Hws as [|w g Hw Hws]; [congruence|].
  apply is_word_spec in Hw as [Hne _].
  destruct g; cbn [join]; [exact Hne|].
  destruct w; [congruence | discriminate].
Qed.

Lemma join_words_starts_clean (g : list string) :
  g <> [] -> Forall (fun w => is_word w = true) g -> starts_clean (join " " g) = true.
Proof.
  intros Hg Hws. destruct Hws as [|w g Hw Hws]; [congruence|].
  destruct g as [|w' g]; [now apply word_starts_clean|].
  rewrite join_cons2. unfold starts_clean. rewrite first_char_app.
  - now apply word_starts_clean.
  - now apply is_word_spec in Hw.
Qed.

Lemma join_words_ends_clean (g : list string) :
  g <> [] -> Forall (fun w => is_word w = true) g -> ends_clean (join " " g) = true.
Proof.
  intros Hg Hws. induction Hws as [|w g Hw Hws IH]; [congruence|].
  destruct g as [|w' g]; [now apply word_ends_clean|].
  rewrite join_cons2. unfold ends_clean. rewrite <- app_assoc, last_char_app.
  - apply IH. discriminate.
  - apply join_words_nonempty; [discriminate | exact Hws].
Qed.

Lemma join_words_no_double_space (g : list string) :
  Forall (fun w => is_word w = true) g -> double_space (join " " g) = false.
Proof.
  induction 1 as [|w g Hw Hws IH]; [reflexivity|].
  apply is_word_spec in Hw as [_ Hw].
  destruct g as [|w' g]; [now apply word_no_double_space|].
  rewrite join_cons2. apply double_space_word_sep; [exact Hw | | exact IH].
  apply join_words_starts_clean; [discriminate | exact Hws].
Qed.

(** Every member of [concat gs] sits in [concat gs] as a block. *)
Lemma concat_block {A : Type} (gs : list (list A)) (g : list A) :
  In g gs -> exists before after, concat gs = (before ++ g ++ after)%list.
Proof.
  induction gs as [|g' gs IH]; intros Hin; [destruct Hin|].
  destruct Hin as [->|Hin].
  - exists [], (concat gs). reflexivity.
  - destruct (IH Hin) as (before & after & E).
    exists (g' ++ before)%list, after. cbn. now rewrite E, List.app_assoc.
Qed.

End StrFacts.

(** ** The wrapper groups the words *)

Module WrapFacts.
Import Str StrFacts Wrap.

Section Groups.

Variable measure : string -> Z.
Variable max_width : Z.

(** The loop invariant: [current_line] is the join of a fitted group
    [g], and the result closes [g] extended by some of [words], then
    groups the remaining ones. *)
Lemma wrap_loop_groups (words : list string) : forall g lines,
  fitted measure max_width g ->
  exists gs,
    wrap_loop measure max_width words (join " " g) lines
      = (lines ++ map (join " ") gs)%list
    /\ concat gs = (g ++ words)%list
    /\ Forall (fitted measure max_width) gs.
Proof.
  induction words as [|word rest IH]; intros g lines Hg.
  - exists [g]. cbn. rewrite app_nil_r. repeat split; try reflexivity.
    now constructor.
  - cbn [wrap_loop]. destruct Hg as [Hne Hfit].
    rewrite <- (join_snoc " " word g Hne).
    destruct (measure (join " " (g ++ [word])%list) <=? max_width) eqn:Hle.
    + destruct (IH (g ++ [word])%list lines) as (gs & Hout & Hcat & Hall).
      { split; [now destruct g | intros _; now apply Z.leb_le]. }
      exists gs. rewrite Hout, Hcat, <- List.app_assoc. now repeat split.
    + destruct (IH [word] (lines ++ [join " " g])%list) as (gs & Hout & Hcat & Hall).
      { split; [discriminate | cbn; lia]. }
      cbn [join] in Hout.
      exists (g :: gs). rewrite Hout, <- List.app_assoc. cbn [map concat].
      rewrite Hcat. repeat split; try reflexivity.
      constructor; [now split | exact Hall].
Qed.

Lemma wrap_text_groups (text : string) :
  split text <> [] ->
  exists gs,
    wrap_text measure max_width text = map (join " ") gs
    /\ concat gs = split text
    /\ Forall (fitted measure max_width) gs.
Proof.
  unfold wrap_text. intros Hne. destruct (split text) as [|first rest]; [congruence|].
  destruct (wrap_loop_groups rest [first] []) as (gs & Hout & Hcat & Hall).
  - split; [discriminate | cbn; lia].
  - exists gs. now repeat split.
Qed.

(** The words inside one group are words of the text. *)
Lemma group_words (text : string) (gs : list (list string)) (g : list string) :
  concat gs = split text -> In g gs -> Forall (fun w => is_word w = true) g.
Proof.
  intros Hcat Hin. destruct (concat_block gs g Hin) as (before & after & E).
  pose proof (split_words text) as Hws. rewrite <- Hcat, E in Hws.
  apply Forall_app in Hws as [_ Hws]. now apply Forall_app in Hws as [Hws _].
Qed.

End Groups.

End WrapFacts.

(** ** Properties of the wrapper *)

Import Str StrFacts Wrap WrapFacts.

(** C1. When the text has at least one token, joining the lines of
    [wrap_text] with single spaces and splitting the result on whitespace
    gives back the tokens of the text, in order, for every measure
    function and every [max_width]. *)
Theorem wrap_text_preserves_tokens (measure : string -> Z) (max_width : Z)
    (text : string) :
  split text <> [] ->
  split (join " " (wrap_text measure max_width text)) = split text.
Proof.
  intros Hne.
  destruct (wrap_text_groups measure max_width text Hne) as (gs & -> & Hcat & Hall).
  rewrite join_concat.
  - rewrite Hcat. apply split_join, split_words.
  - eapply Forall_impl; [exact Hall|]. now intros g [Hg _].
Qed.

Lemma wrap_text_preserves_tokens_witness :
  split "HELLO  WORLD FOO" <> []
  /\ split (join " " (wrap_text (fun s => len s * 10) 139 "HELLO  WORLD FOO"))
     = split "HELLO  WORLD FOO".
Proof.
  split; [vm_compute; discriminate|].
  apply (wrap_text_preserves_tokens (fun s => len s * 10) 139 "HELLO  WORLD FOO").
  vm_compute; discriminate.
Defined.

(** C2, as the code has it. When the text has at least one token, every
    line of [wrap_text] measures at most [max_width] or is one single word
    that is itself wider than [max_width]; and for every text, a line of
    two words or more measures at most [max_width]. *)
Theorem wrap_text_width (measure : string -> Z) (max_width : Z) (text : string) :
  (split text <> [] ->
   Forall (line_within measure max_width) (wrap_text measure max_width text))
  /\ Forall (fun line => (2 <= length (split line))%nat -> measure line <= max_width)
       (wrap_text measure max_width text).
Proof.
  assert (Hkey : split text <> [] ->
    Forall (fun line =>
              line_within measure max_width line
              /\ ((2 <= length (split line))%nat -> measure line <= max_width))
           (wrap_text measure max_width text)).
  { intros Hne.
    destruct (wrap_text_groups measure max_width text Hne) as (gs & -> & Hcat & Hall).
    apply List.Forall_forall. intros line Hin.
    apply in_map_iff in Hin as (g & <- & Hin).
    pose proof (group_words text gs g Hcat Hin) as Hws.
    rewrite List.Forall_forall in Hall. destruct (Hall g Hin) as [Hg Hfit].
    rewrite (split_join g Hws). split; [|exact Hfit].
    destruct g as [|w [|w' g]]; [congruence | | left; apply Hfit; cbn; lia].
    cbn [join]. destruct (Z_le_gt_dec (measure w) max_width) as [Hle|Hgt].
    - now left.
    - right. split; [|lia]. now apply (split_join [w]). }
  split.
  - intros Hne. eapply Forall_impl; [exact (Hkey Hne)|]. now intros line [H _].
  - destruct (split text) as [|first rest] eqn:E.
    + unfold wrap_text. rewrite E. constructor; [|constructor].
      cbn. lia.
    + eapply Forall_impl; [apply Hkey; congruence|]. now intros line [_ H].
Qed.

Lemma wrap_text_width_witness :
  split "HELLO WORLD EXTRAORDINARILY" <> []
  /\ Forall (line_within (fun s => len s * 10) 139)
       (wrap_text (fun s => len s * 10) 139 "HELLO WORLD EXTRAORDINARILY").
Proof.
  split; [vm_compute; discriminate|].
  apply (wrap_text_width (fun s => len s * 10) 139 "HELLO WORLD EXTRAORDINARILY").
  vm_compute; discriminate.
Defined.

(** C2, as stated, fails on blank text: the only line is the empty
    string, which is no word, and nothing compares its width with
    [max_width]. *)
Lemma wrap_text_blank_overflow :
  ~ Forall (line_within (fun s => len s * 10 + 8) 5)
      (wrap_text (fun s => len s * 10 + 8) 5 "   ").
Proof.
  intros H. inversion H as [|line rest Hline _]; subst.
  destruct Hline as [Hle | [Hsplit _]].
  - vm_compute in Hle. now apply Hle.
  - vm_compute in Hsplit. discriminate.
Qed.

(** C5. A text that is empty or holds nothing but whitespace is wrapped
    to exactly one line, the empty string. *)
Theorem wrap_text_blank (measure : string -> Z) (max_width : Z) (text : string) :
  all_space text = true -> wrap_text measure max_width text = [""].
Proof.
  intros Hblank. unfold wrap_text. now rewrite (all_space_split text Hblank).
Qed.

Lemma wrap_text_blank_witness :
  all_space "  " = true /\ wrap_text (fun s => len s * 10) 139 "  " = [""].
Proof.
  split; [reflexivity|].
  apply (wrap_text_blank (fun s => len s * 10) 139 "  "). reflexivity.
Defined.

(** C9. When the text has at least one token, every line of [wrap_text]
    is non-empty, is the join with single spaces of one or more
    consecutive tokens of the text, neither starts nor ends with
    whitespace, and holds no two adjacent whitespace characters. *)
Theorem wrap_text_lines_shape (measure : string -> Z) (max_width : Z)
    (text : string) :
  split text <> [] ->
  Forall (fun line =>
            line <> ""
            /\ (exists before g after,
                   split text = (before ++ g ++ after)%list
                   /\ g <> [] /\ line = join " " g)
            /\ starts_clean line = true
            /\ ends_clean line = true
            /\ double_space line = false)
         (wrap_text measure max_width text).
Proof.
  intros Hne.
  destruct (wrap_text_groups measure max_width text Hne) as (gs & -> & Hcat & Hall).
  apply List.Forall_forall. intros line Hin.
  apply in_map_iff in Hin as (g & <- & Hin).
  pose proof (group_words text gs g Hcat Hin) as Hws.
  rewrite List.Forall_forall in Hall. destruct (Hall g Hin) as [Hg _].
  repeat split.
  - now apply join_words_nonempty.
  - destruct (concat_block gs g Hin) as (before & after & E).
    exists before, g, after. rewrite <- Hcat. now repeat split.
  - now apply join_words_starts_clean.
  - now apply join_words_ends_clean.
  - now apply join_words_no_double_space.
Qed.

Lemma wrap_text_lines_shape_witness :
  split " HELLO WORLD  FOO " <> []
  /\ Forall (fun line =>
               line <> ""
               /\ (exists before g after,
                      split " HELLO WORLD  FOO " = (before ++ g ++ after)%list
                      /\ g <> [] /\ line = join " " g)
               /\ starts_clean line = true
               /\ ends_clean line = true
               /\ double_space line = false)
            (wrap_text (fun s => len s * 10) 139 " HELLO WORLD  FOO ").
Proof.
  split; [vm_compute; discriminate|].
  apply (wrap_text_lines_shape (fun s => len s * 10) 139 " HELLO WORLD  FOO ").
  vm_compute; discriminate.
Defined.

(** ** Facts about float rounding *)

Module ClockFacts.
Import Clock.

(** A second is a positive number of ticks. *)
Lemma ticks_per_second_pos : 0 < ticks_per_second.
Proof. unfold ticks_per_second. apply Z.pow_pos_nonneg; lia. Qed.

(** Rounding goes to the multiple below or to the one above. *)
Lemma round_to_cases (shift x : Z) :
  round_to shift x = (x / 2 ^ shift) * 2 ^ shift
  \/ round_to shift x = (x / 2 ^ shift + 1) * 2 ^ shift.
Proof.
  unfold round_to.
  destruct (_ <? _); [now left|]. destruct (_ <? _); [now right|].
  destruct (Z.even _); [now left | now right].
Qed.

Lemma round_to_mono (shift x y : Z) :
  1 <= shift -> 0 <= x <= y -> round_to shift x <= round_to shift y.
Proof.
  intros Hshift [Hx Hxy].
  assert (Hunit : 2 ^ shift = 2 * 2 ^ (shift - 1)).
  { rewrite <- Z.pow_succ_r by lia. f_equal. lia. }
  assert (Hhalf : 0 < 2 ^ (shift - 1)) by (apply Z.pow_pos_nonneg; lia).
  pose proof (Z.div_le_mono x y (2 ^ shift) ltac:(lia) Hxy) as Hq.
  pose proof (Z.div_mod x (2 ^ shift) ltac:(lia)) as Ex.
  pose proof (Z.div_mod y (2 ^ shift) ltac:(lia)) as Ey.
  pose proof (Z.mod_pos_bound x (2 ^ shift) ltac:(lia)) as Hrx.
  pose proof (Z.mod_pos_bound y (2 ^ shift) ltac:(lia)) as Hry.
  destruct (Z.eq_dec (x / 2 ^ shift) (y / 2 ^ shift)) as [E|Hne].
  - unfold round_to. rewrite <- E.
    assert (Hr : x mod 2 ^ shift <= y mod 2 ^ shift) by nia.
    set (u := 2 ^ shift) in *. set (h := 2 ^ (shift - 1)) in *.
    set (q := x / u) in *. set (rx := x mod u) in *. set (ry := y mod u) in *.
    destruct (rx <? h) eqn:A1; destruct (h <? rx) eqn:A2;
      destruct (ry <? h) eqn:B1; destruct (h <? ry) eqn:B2;
      destruct (Z.even q); nia.
  - destruct (round_to_cases shift x) as [-> | ->];
      destruct (round_to_cases shift y) as [-> | ->]; nia.
Qed.

(** A magnitude is rounded inside its own binade, ends included. *)
Lemma round_to_range (x : Z) :
  0 < x -> 1 <= Z.log2 x - 52 ->
  2 ^ Z.log2 x <= round_to (Z.log2 x - 52) x <= 2 ^ (Z.log2 x + 1).
Proof.
  intros Hx Hshift.
  destruct (Z.log2_spec x Hx) as [Hlo Hhi].
  set (k := Z.log2 x) in *. set (s := k - 52) in *.
  assert (Hu : 0 < 2 ^ s) by (apply Z.pow_pos_nonneg; lia).
  assert (Ek : 2 ^ k = 2 ^ 52 * 2 ^ s).
  { rewrite <- Z.pow_add_r by lia. f_equal. lia. }
  assert (Ek1 : 2 ^ (k + 1) = 2 ^ 53 * 2 ^ s).
  { rewrite <- Z.pow_add_r by lia. f_equal. lia. }
  replace (Z.succ k) with (k + 1) in Hhi by lia.
  assert (Hqlo : 2 ^ 52 <= x / 2 ^ s) by (apply Z.div_le_lower_bound; lia).
  assert (Hqhi : x / 2 ^ s < 2 ^ 53) by (apply Z.div_lt_upper_bound; lia).
  rewrite Ek, Ek1.
  destruct (round_to_cases s x) as [-> | ->]; nia.
Qed.

Lemma round_magnitude_nonneg (x : Z) : 0 <= x -> 0 <= round_magnitude x.
Proof.
  intros Hx. unfold round_magnitude.
  destruct (Z.log2 x - 52 <=? 0) eqn:E; [exact Hx|].
  apply Z.leb_gt in E.
  assert (0 < x) by (destruct (Z.eq_dec x 0) as [->|]; [cbn in E; lia | lia]).
  pose proof (round_to_range x ltac:(lia) ltac:(lia)) as [Hlo _].
  pose proof (Z.pow_pos_nonneg 2 (Z.log2 x) ltac:(lia) (Z.log2_nonneg x)). lia.
Qed.

Lemma round_magnitude_mono (x y : Z) :
  0 <= x <= y -> round_magnitude x <= round_magnitude y.
Proof.
  intros [Hx Hxy]. unfold round_magnitude.
  pose proof (Z.log2_le_mono x y Hxy) as Hk.
  destruct (Z.log2 y - 52 <=? 0) eqn:Ey.
  - apply Z.leb_le in Ey. destruct (Z.log2 x - 52 <=? 0) eqn:Ex; [exact Hxy|].
    apply Z.leb_gt in Ex. lia.
  - apply Z.leb_gt in Ey.
    assert (Hy : 0 < y) by (destruct (Z.eq_dec y 0) as [->|]; [cbn in Ey; lia | lia]).
    pose proof (round_to_range y Hy ltac:(lia)) as [Hylo _].
    destruct (Z.log2 x - 52 <=? 0) eqn:Ex.
    + apply Z.leb_le in Ex.
      destruct (Z.eq_dec x 0) as [->|Hx0].
      * pose proof (Z.pow_pos_nonneg 2 (Z.log2 y) ltac:(lia) (Z.log2_nonneg y)). lia.
      * destruct (Z.log2_spec x ltac:(lia)) as [_ Hxhi].
        assert (2 ^ Z.succ (Z.log2 x) <= 2 ^ Z.log2 y)
          by (apply Z.pow_le_mono_r; lia).
        lia.
    + apply Z.leb_gt in Ex.
      assert (Hx0 : 0 < x) by (destruct (Z.eq_dec x 0) as [->|]; [cbn in Ex; lia | lia]).
      destruct (Z.eq_dec (Z.log2 x) (Z.log2 y)) as [E|Hne].
      * rewrite E. apply round_to_mono; lia.
      * pose proof (round_to_range x Hx0 ltac:(lia)) as [_ Hxhi].
        assert (2 ^ (Z.log2 x + 1) <= 2 ^ Z.log2 y)
          by (apply Z.pow_le_mono_r; lia).
        lia.
Qed.

(** Rounding keeps the order. *)
Lemma round64_mono (x y : Z) : x <= y -> round64 x <= round64 y.
Proof.
  intros Hxy. unfold round64.
  destruct (x <? 0) eqn:Ex; destruct (y <? 0) eqn:Ey.
  - apply Z.ltb_lt in Ex, Ey.
    pose proof (round_magnitude_mono (- y) (- x) ltac:(lia)). lia.
  - apply Z.ltb_lt in Ex. apply Z.ltb_ge in Ey.
    pose proof (round_magnitude_nonneg (- x) ltac:(lia)).
    pose proof (round_magnitude_nonneg y Ey). lia.
  - apply Z.ltb_ge in Ex. apply Z.ltb_lt in Ey. lia.
  - apply Z.ltb_ge in Ex, Ey. apply round_magnitude_mono. lia.
Qed.

Lemma is_float_round64 (x : Z) : is_float x = true -> round64 x = x.
Proof. unfold is_float. apply Z.eqb_eq. Qed.

(** No float lies between a number and its rounding. *)
Lemma float_le_round64 (t x : Z) : is_float t = true -> t <= x -> t <= round64 x.
Proof.
  intros Ht Hle. rewrite <- (is_float_round64 t Ht). now apply round64_mono.
Qed.

Lemma round64_le_float (t x : Z) : is_float t = true -> x <= t -> round64 x <= t.
Proof.
  intros Ht Hle. rewrite <- (is_float_round64 t Ht). now apply round64_mono.
Qed.

(** A multiple of the unit is left alone. *)
Lemma round_to_multiple (shift q : Z) :
  1 <= shift -> round_to shift (q * 2 ^ shift) = q * 2 ^ shift.
Proof.
  intros Hshift. unfold round_to.
  assert (Hu : 0 < 2 ^ shift) by (apply Z.pow_pos_nonneg; lia).
  assert (Hhalf : 0 < 2 ^ (shift - 1)) by (apply Z.pow_pos_nonneg; lia).
  rewrite Z.mod_mul by lia. rewrite Z.div_mul by lia.
  destruct (0 <? 2 ^ (shift - 1)) eqn:E; [reflexivity|].
  apply Z.ltb_ge in E. lia.
Qed.

Lemma round_magnitude_idempotent (x : Z) :
  0 <= x -> round_magnitude (round_magnitude x) = round_magnitude x.
Proof.
  intros Hx. unfold round_magnitude at 2 3.
  destruct (Z.log2 x - 52 <=? 0) eqn:E.
  - unfold round_magnitude. now rewrite E.
  - apply Z.leb_gt in E.
    assert (Hx0 : 0 < x) by (destruct (Z.eq_dec x 0) as [->|]; [cbn in E; lia | lia]).
    destruct (Z.log2_spec x Hx0) as [Hlo Hhi].
    set (k := Z.log2 x) in *. set (s := k - 52) in *.
    assert (Hu : 0 < 2 ^ s) by (apply Z.pow_pos_nonneg; lia).
    assert (Ek : 2 ^ k = 2 ^ 52 * 2 ^ s).
    { rewrite <- Z.pow_add_r by lia. f_equal. lia. }
    assert (Ek1 : 2 ^ (k + 1) = 2 ^ 53 * 2 ^ s).
    { rewrite <- Z.pow_add_r by lia. f_equal. lia. }
    replace (Z.succ k) with (k + 1) in Hhi by lia.
    assert (Hqlo : 2 ^ 52 <= x / 2 ^ s) by (apply Z.div_le_lower_bound; lia).
    assert (Hqhi : x / 2 ^ s < 2 ^ 53) by (apply Z.div_lt_upper_bound; lia).
    assert (Hcase : exists q, round_to s x = q * 2 ^ s /\ 2 ^ 52 <= q <= 2 ^ 53).
    { destruct (round_to_cases s x) as [-> | ->]; eexists; split; try reflexivity; lia. }
    destruct Hcase as (q & -> & Hq).
    destruct (Z.eq_dec q (2 ^ 53)) as [->|Hne].
    + rewrite <- Ek1. unfold round_magnitude.
      rewrite Z.log2_pow2 by lia.
      destruct (k + 1 - 52 <=? 0) eqn:E2; [reflexivity|].
      replace (2 ^ (k + 1)) with (2 ^ 52 * 2 ^ (k + 1 - 52)).
      * apply round_to_multiple. lia.
      * rewrite <- Z.pow_add_r by lia. f_equal. lia.
    + assert (Hlog : Z.log2 (q * 2 ^ s) = k).
      { apply Z.log2_unique; [lia|]. replace (Z.succ k) with (k + 1) by lia. nia. }
      unfold round_magnitude. rewrite Hlog. fold s.
      destruct (s <=? 0) eqn:E2; [reflexivity|]. apply round_to_multiple. lia.
Qed.

(** A rounded number is a float: so is every float sum, and every
    [expires_at] that [store_image] writes. *)
Lemma round64_is_float (x : Z) : is_float (round64 x) = true.
Proof.
  unfold is_float. apply Z.eqb_eq. unfold round64 at 2 3.
  destruct (x <? 0) eqn:Ex.
  - apply Z.ltb_lt in Ex.
    pose proof (round_magnitude_nonneg (- x) ltac:(lia)) as Hr.
    unfold round64.
    destruct (- round_magnitude (- x) <? 0) eqn:E.
    + rewrite Z.opp_involutive. now rewrite round_magnitude_idempotent by lia.
    + apply Z.ltb_ge in E. assert (E0 : round_magnitude (- x) = 0) by lia.
      rewrite E0. reflexivity.
  - apply Z.ltb_ge in Ex.
    pose proof (round_magnitude_nonneg x Ex) as Hr.
    unfold round64.
    destruct (round_magnitude x <? 0) eqn:E; [apply Z.ltb_lt in E; lia|].
    now apply round_magnitude_idempotent.
Qed.

(** The float sum is the exact sum when that is a float. *)
Lemma float_add_exact (x y : Z) : is_float (x + y) = true -> float_add x y = x + y.
Proof. apply is_float_round64. Qed.

End ClockFacts.

(** ** Facts about the store *)

Module StoreFacts.
Import Clock ClockFacts Store.

Lemma lookup_pop_all (keys : list string) : forall (store : gmap string entry) k,
  pop_all keys store !! k = if decide (k ∈ keys) then None else store !! k.
Proof.
  unfold pop_all. induction keys as [|key keys IH]; intros store k; cbn [fold_left].
  - destruct (decide (k ∈ [])) as [Hin|]; [|reflexivity].
    now apply elem_of_nil in Hin.
  - rewrite IH. destruct (decide (k ∈ keys)) as [Hin|Hout].
    + rewrite decide_True; [reflexivity|]. now apply elem_of_cons; right.
    + destruct (decide (key = k)) as [->|Hne].
      * rewrite lookup_delete_eq, decide_True; [reflexivity|].
        now apply elem_of_cons; left.
      * rewrite lookup_delete_ne by exact Hne.
        rewrite decide_False; [reflexivity|].
        intros [->|Hin]%elem_of_cons; [congruence | contradiction].
Qed.

Lemma elem_of_expired_keys (now : Z) (store : gmap string entry) (k : string) :
  k ∈ expired_keys now store
  <-> exists e, store !! k = Some e /\ now > expires_at e.
Proof.
  unfold expired_keys. rewrite list_elem_of_In, in_map_iff. split.
  - intros ([k' e] & <- & Hin). apply filter_In in Hin as [Hin Hexp].
    apply list_elem_of_In, elem_of_map_to_list in Hin.
    exists e. split; [exact Hin | cbn in Hexp; lia].
  - intros (e & Hk & Hexp). exists (k, e). split; [reflexivity|].
    apply filter_In. split.
    + now apply list_elem_of_In, elem_of_map_to_list.
    + cbn. lia.
Qed.

(** What the sweep leaves under one key. *)
Lemma lookup_cleanup (now : Z) (store : gmap string entry) (k : string) :
  cleanup_ephemeral_store now store !! k
  = match store !! k with
    | Some e => if now >? expires_at e then None else Some e
    | None => None
    end.
Proof.
  unfold cleanup_ephemeral_store. rewrite lookup_pop_all.
  destruct (decide (k ∈ expired_keys now store)) as [Hin|Hout].
  - apply elem_of_expired_keys in Hin as (e & -> & Hexp).
    destruct (now >? expires_at e) eqn:E; [reflexivity | lia].
  - destruct (store !! k) as [e|] eqn:Hk; [|reflexivity].
    destruct (now >? expires_at e) eqn:E; [|reflexivity].
    exfalso. apply Hout, elem_of_expired_keys. exists e. split; [exact Hk | lia].
Qed.

Lemma lookup_cleanup_live (now : Z) (store : gmap string entry) (k : string) (e : entry) :
  store !! k = Some e -> now <= expires_at e ->
  cleanup_ephemeral_store now store !! k = Some e.
Proof.
  intros Hk Hlive. rewrite lookup_cleanup, Hk. expiry_cases.
Qed.

Lemma lookup_cleanup_expired (now : Z) (store : gmap string entry) (k : string) (e : entry) :
  store !! k = Some e -> now > expires_at e ->
  cleanup_ephemeral_store now store !! k = None.
Proof.
  intros Hk Hexp. rewrite lookup_cleanup, Hk. expiry_cases.
Qed.

Lemma lookup_cleanup_Some (now : Z) (store : gmap string entry) (k : string) (e : entry) :
  cleanup_ephemeral_store now store !! k = Some e ->
  store !! k = Some e /\ now <= expires_at e.
Proof.
  rewrite lookup_cleanup. destruct (store !! k) as [e'|]; [|discriminate].
  destruct (now >? expires_at e') eqn:E; [discriminate|].
  intros [= ->]. split; [reflexivity | lia].
Qed.

Lemma lookup_cleanup_None_iff (now : Z) (store : gmap string entry) (k : string)
    (e : entry) :
  store !! k = Some e ->
  cleanup_ephemeral_store now store !! k = None <-> now > expires_at e.
Proof.
  intros Hk. split; [|now apply lookup_cleanup_expired].
  intros Hgone. destruct (Z_le_gt_dec now (expires_at e)) as [Hlive|]; [|assumption].
  rewrite (lookup_cleanup_live _ _ _ _ Hk Hlive) in Hgone. discriminate.
Qed.

(** The three ways [temp_image] can go for an entry that is present. *)
Lemma temp_image_hit (k : string) (now_sweep now_check : Z)
    (store : gmap string entry) (e : entry) :
  store !! k = Some e -> now_sweep <= expires_at e -> now_check <= expires_at e ->
  temp_image k now_sweep now_check store
  = (SendFile (data e) "image/jpeg", cleanup_ephemeral_store now_sweep store).
Proof.
  intros Hk Hsweep Hcheck. unfold temp_image.
  rewrite (lookup_cleanup_live _ _ _ _ Hk Hsweep). expiry_cases.
Qed.

Lemma temp_image_swept (k : string) (now_sweep now_check : Z)
    (store : gmap string entry) (e : entry) :
  store !! k = Some e -> now_sweep > expires_at e ->
  temp_image k now_sweep now_check store
  = (Abort 404 "Image not found or expired", cleanup_ephemeral_store now_sweep store).
Proof.
  intros Hk Hsweep. unfold temp_image.
  now rewrite (lookup_cleanup_expired _ _ _ _ Hk Hsweep).
Qed.

Lemma temp_image_late (k : string) (now_sweep now_check : Z)
    (store : gmap string entry) (e : entry) :
  store !! k = Some e -> now_sweep <= expires_at e -> now_check > expires_at e ->
  temp_image k now_sweep now_check store
  = (Abort 404 "Image has expired", delete k (cleanup_ephemeral_store now_sweep store)).
Proof.
  intros Hk Hsweep Hcheck. unfold temp_image.
  rewrite (lookup_cleanup_live _ _ _ _ Hk Hsweep). expiry_cases.
Qed.

(** Whatever [temp_image] leaves in the store was there before. *)
Lemma temp_image_keeps (k other : string) (now_sweep now_check : Z)
    (store : gmap string entry) (e : entry) :
  snd (temp_image k now_sweep now_check store) !! other = Some e ->
  store !! other = Some e.
Proof.
  unfold temp_image.
  destruct (cleanup_ephemeral_store now_sweep store !! k) as [image_entry|].
  - destruct (now_check >? expires_at image_entry); cbn [snd].
    + intros H. apply lookup_delete_Some in H as [_ H].
      now apply lookup_cleanup_Some in H.
    + intros H. now apply lookup_cleanup_Some in H.
  - cbn [snd]. intros H. now apply lookup_cleanup_Some in H.
Qed.

End StoreFacts.

(** ** Facts about the generate handler *)

Module HandlerFacts.
Import Clock ClockFacts Store Handler StoreFacts.

Section Generate.

Variable env : collaborators.

(** A raising step makes the whole of [render] raise the same message. *)
Lemma raises_render (req : request) (msg : string) :
  raises env req msg -> render env req = Raise msg.
Proof.
  unfold render.
  intros [Hb | body Hb Hf | body content Hb Hf Hd
          | body content img Hb Hf Hd Hlf
          | body content img logo_content Hb Hf Hd Hlf Hld
          | body content img logo_content logo Hb Hf Hd Hlf Hld Hfont];
    rewrite Hb; cbn; try reflexivity;
    rewrite Hf; cbn; try reflexivity;
    rewrite Hd; cbn; try reflexivity;
    rewrite Hlf; cbn; try reflexivity;
    rewrite Hld; cbn; try reflexivity;
    rewrite Hfont; reflexivity.
Qed.

(** [render] raises only through one of those steps. *)
Lemma render_raises (req : request) (msg : string) :
  render env req = Raise msg -> raises env req msg.
Proof.
  unfold render.
  destruct (get_json req) as [m|body] eqn:Hb; cbn;
    [intros [= ->]; now apply raises_body|].
  destruct (requests_get env (image_url body)) as [m|content] eqn:Hf; cbn;
    [intros [= ->]; eapply raises_fetch_image; eassumption|].
  destruct (image_open env content "RGB") as [m|img] eqn:Hd; cbn;
    [intros [= ->]; eapply raises_decode_image; eassumption|].
  destruct (requests_get env (Some (default DEFAULT_LOGO_URL (logo_url body))))
    as [m|logo_content] eqn:Hlf; cbn;
    [intros [= ->]; eapply raises_fetch_logo; eassumption|].
  destruct (image_open env logo_content "RGBA") as [m|logo] eqn:Hld; cbn;
    [intros [= ->]; eapply raises_decode_logo; eassumption|].
  destruct (truetype env FONT_PATH 80) as [m|fnt] eqn:Hfont; cbn;
    [intros [= ->]; eapply raises_load_font; eassumption|].
  discriminate.
Qed.

(** The store after [edit_image] is the old one or the old one with the
    new image. *)
Lemma edit_image_store (req : request) (image_id : string) (now : Z)
    (store : gmap string entry) :
  snd (edit_image env req image_id now store)
  = match render env req with
    | Return output => store_image image_id output now store
    | Raise _ => store
    end.
Proof. unfold edit_image. now destruct (render env req). Qed.

Lemma step_dated (ev : event) (st : state) : dated st -> dated (step env ev st).
Proof.
  intros Hst k e. destruct ev as [req image_id now | image_id ts tc | now];
    cbn [step cells inserted_at].
  - rewrite edit_image_store. destruct (render env req) as [msg|output].
    + apply Hst.
    + unfold store_image. destruct (decide (image_id = k)) as [->|Hne].
      * rewrite !lookup_insert_eq. intros [= <-]. now exists now.
      * rewrite !lookup_insert_ne by exact Hne. apply Hst.
  - intros Hk. apply temp_image_keeps in Hk. now apply Hst.
  - intros Hk. apply lookup_cleanup_Some in Hk as [Hk _]. now apply Hst.
Qed.

Lemma reachable_dated (st : state) : reachable env st -> dated st.
Proof.
  induction 1 as [|ev st _ IH].
  - intros k e Hk. cbn in Hk. now rewrite lookup_empty in Hk.
  - now apply step_dated.
Qed.

(** An entry that survives a step is the entry it was. *)
Lemma step_keeps (ev : event) (st : state) (k : string) (e e' : entry) :
  fresh_id ev (cells st) ->
  cells st !! k = Some e ->
  cells (step env ev st) !! k = Some e' ->
  e' = e.
Proof.
  intros Hfresh Hk. destruct ev as [req image_id now | image_id ts tc | now];
    cbn [step cells fresh_id] in *.
  - rewrite edit_image_store. destruct (render env req) as [msg|output].
    + congruence.
    + unfold store_image. rewrite lookup_insert_ne by congruence. congruence.
  - intros Hk'. apply temp_image_keeps in Hk'. congruence.
  - intros Hk'. apply lookup_cleanup_Some in Hk' as [Hk' _]. congruence.
Qed.

(** An entry that survives a step which does not store under its
    identifier is the entry it was. *)
Lemma step_keeps_other (ev : event) (st : state) (k : string) (e e' : entry) :
  ~ stores_under ev k ->
  cells st !! k = Some e ->
  cells (step env ev st) !! k = Some e' ->
  e' = e.
Proof.
  intros Hother Hk. destruct ev as [req image_id now | image_id ts tc | now];
    cbn [step cells stores_under] in *.
  - rewrite edit_image_store. destruct (render env req) as [msg|output].
    + congruence.
    + unfold store_image. rewrite lookup_insert_ne by exact Hother. congruence.
  - intros Hk'. apply temp_image_keeps in Hk'. congruence.
  - intros Hk'. apply lookup_cleanup_Some in Hk' as [Hk' _]. congruence.
Qed.

(** A quiet event leaves the entry where it is. *)
Lemma step_quiet (ev : event) (st : state) (k : string) (e : entry) :
  quiet k (expires_at e) ev ->
  cells st !! k = Some e ->
  cells (step env ev st) !! k = Some e.
Proof.
  intros Hquiet Hk. destruct ev as [req image_id now | image_id ts tc | now];
    cbn [step cells quiet] in *.
  - rewrite edit_image_store. destruct (render env req) as [msg|output];
      [exact Hk|]. unfold store_image. now rewrite lookup_insert_ne.
  - destruct Hquiet as [Hsweep Hcheck].
    pose proof (lookup_cleanup_live ts _ _ _ Hk Hsweep) as Hlive.
    unfold temp_image.
    destruct (cleanup_ephemeral_store ts (cells st) !! image_id) as [found|] eqn:Hid;
      [|exact Hlive].
    destruct (tc >? expires_at found) eqn:E; [|exact Hlive]. cbn [snd].
    destruct (decide (image_id = k)) as [->|Hne].
    + rewrite Hlive in Hid. injection Hid as <-. specialize (Hcheck eq_refl). lia.
    + now rewrite lookup_delete_ne.
  - now apply lookup_cleanup_live.
Qed.

Lemma run_quiet (evs : list event) : forall (st : state) (k : string) (e : entry),
  Forall (quiet k (expires_at e)) evs ->
  cells st !! k = Some e ->
  cells (run env evs st) !! k = Some e.
Proof.
  unfold run. induction evs as [|ev evs IH]; intros st k e Hquiet Hk; [exact Hk|].
  inversion Hquiet as [|? ? Hev Hevs]; subst. cbn [fold_left].
  apply IH; [exact Hevs | now apply step_quiet].
Qed.

(** With float readings, quiet until the exact sum is quiet until the
    float sum. *)
Lemma quiet_float_sum (k : string) (t0 : Z) (ev : event) :
  float_readings ev ->
  quiet k (t0 + seconds IMAGE_LIFETIME) ev ->
  quiet k (float_add t0 (seconds IMAGE_LIFETIME)) ev.
Proof.
  destruct ev as [req image_id now | image_id ts tc | now]; cbn [float_readings quiet].
  - intros _ H. exact H.
  - intros [Fs Fc] [Hs Hc]. split.
    + now apply float_le_round64.
    + intros E. apply float_le_round64; [exact Fc | now apply Hc].
  - intros F H. now apply float_le_round64.
Qed.

(** From a successful generate at [t0], through any quiet run, to a fetch
    no later than the float sum of [t0] and 60: the image comes back. *)
Lemma fetch_after_quiet_run (req : request) (image_id : string) (t0 : Z)
    (output : bytes) (evs : list event) (st : state) (now_sweep now_check : Z) :
  render env req = Return output ->
  Forall (quiet image_id (float_add t0 (seconds IMAGE_LIFETIME))) evs ->
  now_sweep <= float_add t0 (seconds IMAGE_LIFETIME) ->
  now_check <= float_add t0 (seconds IMAGE_LIFETIME) ->
  fst (temp_image image_id now_sweep now_check
         (cells (run env evs (step env (Generate req image_id t0) st))))
  = SendFile output "image/jpeg".
Proof.
  intros Hrender Hquiet Hsweep Hcheck.
  set (e := {| data := output;
               expires_at := float_add t0 (seconds IMAGE_LIFETIME) |}).
  assert (Hk : cells (run env evs (step env (Generate req image_id t0) st)) !! image_id
               = Some e).
  { apply run_quiet; [exact Hquiet|]. cbn [step cells].
    rewrite edit_image_store, Hrender. apply lookup_insert_eq. }
  now rewrite (temp_image_hit _ _ _ _ _ Hk Hsweep Hcheck).
Qed.

End Generate.

End HandlerFacts.

(** ** Properties of the store and of the handlers *)

Import Clock ClockFacts Store Handler StoreFacts HandlerFacts.

(** C3, as the code has it. An image stored at reading [t0] expires at
    the float sum of [t0] and 60. As long as the entry that was stored is
    still under its identifier: a fetch whose clock readings are floats
    less than 60 seconds after [t0] returns the stored payload; a fetch
    with a reading greater than that float sum is answered 404 and leaves
    no entry under the identifier; and when the exact sum is itself a
    float, so is every fetch with a reading more than 60 seconds after
    [t0]. *)
Theorem get_after_insert (image_id : string) (payload : bytes) (t0 : Z)
    (store later : gmap string entry) (now_sweep now_check : Z) :
  later !! image_id = store_image image_id payload t0 store !! image_id ->
  (is_float now_sweep = true -> is_float now_check = true ->
   now_sweep - t0 < seconds 60 -> now_check - t0 < seconds 60 ->
   fst (temp_image image_id now_sweep now_check later) = SendFile payload "image/jpeg")
  /\ (now_sweep > float_add t0 (seconds 60) \/ now_check > float_add t0 (seconds 60) ->
      not_found (fst (temp_image image_id now_sweep now_check later)) = true
      /\ snd (temp_image image_id now_sweep now_check later) !! image_id = None)
  /\ (is_float (t0 + seconds 60) = true ->
      now_sweep - t0 > seconds 60 \/ now_check - t0 > seconds 60 ->
      not_found (fst (temp_image image_id now_sweep now_check later)) = true
      /\ snd (temp_image image_id now_sweep now_check later) !! image_id = None).
Proof.
  unfold store_image. rewrite lookup_insert_eq. unfold IMAGE_LIFETIME.
  intros Hk.
  assert (Hlate : now_sweep > float_add t0 (seconds 60)
                  \/ now_check > float_add t0 (seconds 60) ->
                  not_found (fst (temp_image image_id now_sweep now_check later)) = true
                  /\ snd (temp_image image_id now_sweep now_check later) !! image_id
                     = None).
  { intros Hlate.
    destruct (Z_le_gt_dec now_sweep (float_add t0 (seconds 60))) as [Hsweep|Hsweep].
    - rewrite (temp_image_late _ _ _ _ _ Hk); cbn [expires_at fst snd not_found];
        [|exact Hsweep|lia].
      split; [reflexivity | apply lookup_delete_eq].
    - rewrite (temp_image_swept _ _ _ _ _ Hk); cbn [expires_at fst snd not_found];
        [|exact Hsweep].
      split; [reflexivity|]. now apply (lookup_cleanup_expired _ _ _ _ Hk). }
  split; [|split].
  - intros Fsweep Fcheck Hsweep Hcheck.
    rewrite (temp_image_hit _ _ _ _ _ Hk); cbn [expires_at data fst]; [reflexivity| |].
    + apply float_le_round64; [exact Fsweep | lia].
    + apply float_le_round64; [exact Fcheck | lia].
  - exact Hlate.
  - intros Fsum Hover. apply Hlate. rewrite (float_add_exact _ _ Fsum). lia.
Qed.

(** The scenario of the specification: stored at 0, fetched at 59 seconds,
    at 59.5 seconds, and at 61 seconds. *)
Lemma get_after_insert_witness :
  let stored := store_image "7f3c" [Byte.x58] 0 ∅ in
  let first := temp_image "7f3c" (seconds 59) (seconds 59) stored in
  let second := temp_image "7f3c" (dyadic 119 (-1)) (dyadic 119 (-1)) (snd first) in
  let third := temp_image "7f3c" (seconds 61) (seconds 61) (snd second) in
  fst first = SendFile [Byte.x58] "image/jpeg"
  /\ fst second = SendFile [Byte.x58] "image/jpeg"
  /\ not_found (fst third) = true
  /\ snd third !! "7f3c" = None.
Proof.
  intros stored first second third. split; [|split].
  - apply (get_after_insert "7f3c" [Byte.x58] 0 ∅ stored (seconds 59) (seconds 59));
      by_ticks.
  - apply (get_after_insert "7f3c" [Byte.x58] 0 ∅ (snd first) (dyadic 119 (-1))
             (dyadic 119 (-1))); by_ticks.
  - apply (get_after_insert "7f3c" [Byte.x58] 0 ∅ (snd second) (seconds 61) (seconds 61));
      [by_ticks | by_ticks | left; by_ticks].
Defined.

(** C3, as stated, fails where the float sum rounds up: an image stored
    at 2147483647.9999998 expires at 2147483708.0, and a fetch at that
    reading, more than 60 seconds after the insertion, is served. *)
Lemma get_after_insert_served_past_sixty :
  let t0 := dyadic (2 ^ 53 - 1) (-22) in
  let t := seconds 2147483708 in
  let stored := store_image "7f3c" [Byte.x58] t0 ∅ in
  is_float t0 = true /\ is_float t = true
  /\ t - t0 > seconds 60
  /\ fst (temp_image "7f3c" t t stored) = SendFile [Byte.x58] "image/jpeg".
Proof.
  intros t0 t stored.
  split; [by_ticks|]. split; [by_ticks|]. split; by_ticks.
Qed.

(** C4. The sweep removes an entry exactly when the time is past its
    [expires_at]: an entry is gone afterwards if and only if
    [now > expires_at], an entry with [now <= expires_at] is still there
    with the same payload and expiry, and the sweep adds or alters
    nothing. *)
Theorem cleanup_removes_exactly_expired (now : Z) (store : gmap string entry)
    (image_id : string) :
  (forall e, store !! image_id = Some e ->
     (cleanup_ephemeral_store now store !! image_id = None <-> now > expires_at e)
     /\ (now <= expires_at e -> cleanup_ephemeral_store now store !! image_id = Some e))
  /\ (forall e, cleanup_ephemeral_store now store !! image_id = Some e ->
        store !! image_id = Some e).
Proof.
  split.
  - intros e Hk. split.
    + now apply lookup_cleanup_None_iff.
    + now apply lookup_cleanup_live.
  - intros e Hk. now apply lookup_cleanup_Some in Hk.
Qed.

Lemma cleanup_removes_exactly_expired_witness :
  let store := store_image "old" [] 0 (store_image "new" [Byte.x58] (seconds 50) ∅) in
  cleanup_ephemeral_store (seconds 100) store !! "old" = None
  /\ cleanup_ephemeral_store (seconds 100) store !! "new"
     = Some (Entry [Byte.x58] (seconds 110)).
Proof.
  intros store.
  destruct (cleanup_removes_exactly_expired (seconds 100) store "old") as [Hold _].
  destruct (cleanup_removes_exactly_expired (seconds 100) store "new") as [Hnew _].
  assert (Ho : store !! "old" = Some (Entry [] (seconds 60))) by by_ticks.
  assert (Hn : store !! "new" = Some (Entry [Byte.x58] (seconds 110))) by by_ticks.
  split.
  - destruct (Hold _ Ho) as [[_ Hgone] _]. apply Hgone. by_ticks.
  - destruct (Hnew _ Hn) as [_ Hkept]. apply Hkept. by_ticks.
Defined.

(** C6, as the code has it. When a step of a generate request raises
    (reading the body, either fetch, either decode, or the font load), the
    answer is status 400 with the raised message as its error text,
    whatever that message is, and the store is exactly what it was. *)
Theorem edit_image_failure_leaves_store (env : collaborators) (req : request)
    (msg : string) (image_id : string) (now : Z) (store : gmap string entry) :
  raises env req msg ->
  edit_image env req image_id now store = (Jsonify 400 [("error", msg)], store).
Proof.
  intros Hraise. apply raises_render in Hraise.
  unfold edit_image. now rewrite Hraise.
Qed.

Lemma edit_image_failure_leaves_store_witness :
  let req := {| get_json := Return {| image_url := Some "http://unreachable.invalid/a.png";
                                      text := Some "hello world";
                                      logo_url := None |};
                host_url := "http://localhost:10000/" |} in
  let store := store_image "7f3c" [Byte.x58] 0 ∅ in
  raises offline req "Connection refused"
  /\ edit_image offline req "91ab" (seconds 5) store
     = (Jsonify 400 [("error", "Connection refused")], store).
Proof.
  intros req store.
  assert (Hraise : raises offline req "Connection refused").
  { eapply raises_fetch_image; reflexivity. }
  split; [exact Hraise|].
  apply (edit_image_failure_leaves_store offline req "Connection refused" "91ab"
           (seconds 5) store Hraise).
Defined.

(** C6, as stated, fails for an exception without a message: the fetch
    raises, the answer is 400, and its error text is empty. *)
Lemma edit_image_empty_error :
  let req := {| get_json := Return {| image_url := Some "http://images.example/a.png";
                                      text := None; logo_url := None |};
                host_url := "http://localhost:10000/" |} in
  raises silent req ""
  /\ fst (edit_image silent req "91ab" (seconds 5) ∅) = Jsonify 400 [("error", "")]
  /\ ~ (exists reason,
           fst (edit_image silent req "91ab" (seconds 5) ∅)
           = Jsonify 400 [("error", reason)] /\ reason <> "").
Proof.
  intros req. split; [|split].
  - eapply raises_fetch_image; reflexivity.
  - reflexivity.
  - intros (reason & Hresp & Hreason). cbn in Hresp.
    injection Hresp as <-. now apply Hreason.
Qed.

(** C7, as the code has it. A successful generate stores its image with
    [expires_at] the float sum of the reading and 60, which is the exact
    sum whenever the exact sum is a float; in every state the server can
    reach, every entry has [expires_at] equal to the float sum of the
    reading at which it was stored and 60; and an entry that is still
    there after a fetch, a sweep or a generate under another identifier is
    unchanged. *)
Theorem expires_at_is_insertion_plus_lifetime (env : collaborators) :
  (forall req image_id now store output,
     render env req = Return output ->
     snd (edit_image env req image_id now store) !! image_id
     = Some {| data := output; expires_at := float_add now (seconds 60) |})
  /\ (forall now,
        is_float (now + seconds 60) = true ->
        float_add now (seconds 60) = now + seconds 60)
  /\ (forall st, reachable env st ->
      forall image_id e, cells st !! image_id = Some e ->
        exists t, inserted_at st !! image_id = Some t
                  /\ expires_at e = float_add t (seconds 60))
  /\ (forall ev st image_id e e',
        ~ stores_under ev image_id ->
        cells st !! image_id = Some e ->
        cells (step env ev st) !! image_id = Some e' ->
        e' = e).
Proof.
  split; [|split; [|split]].
  - intros req image_id now store output Hrender.
    rewrite edit_image_store, Hrender. apply lookup_insert_eq.
  - intros now. apply float_add_exact.
  - intros st Hreach. exact (reachable_dated env st Hreach).
  - intros ev st image_id e e'. apply step_keeps_other.
Qed.

Lemma expires_at_is_insertion_plus_lifetime_witness :
  let req := {| get_json := Return {| image_url := Some "http://images.example/a.png";
                                      text := None; logo_url := None |};
                host_url := "http://localhost:10000/" |} in
  let before := step online (Generate req "91ab" (seconds 30))
                  (step online (Generate req "7f3c" 0) initial) in
  let st := step online (Generate req "c0de" (seconds 40)) before in
  reachable online st
  /\ ~ stores_under (Generate req "c0de" (seconds 40)) "91ab"
  /\ cells before !! "91ab" = Some (Entry [Byte.x58] (seconds 90))
  /\ cells st !! "91ab" = Some (Entry [Byte.x58] (seconds 90))
  /\ exists t, inserted_at st !! "91ab" = Some t
               /\ seconds 90 = float_add t (seconds 60).
Proof.
  intros req before st.
  assert (Hreach : reachable online st) by (repeat constructor).
  assert (Hother : ~ stores_under (Generate req "c0de" (seconds 40)) "91ab")
    by (cbn; discriminate).
  assert (Hbefore : cells before !! "91ab" = Some (Entry [Byte.x58] (seconds 90)))
    by by_ticks.
  destruct (expires_at_is_insertion_plus_lifetime online) as (_ & _ & Hdated & Hkept).
  destruct (cells st !! "91ab") as [e'|] eqn:Hafter; [|vm_compute in Hafter; discriminate].
  pose proof (Hkept (Generate req "c0de" (seconds 40)) before "91ab" _ e'
                Hother Hbefore Hafter) as ->.
  split; [exact Hreach|]. split; [exact Hother|]. split; [exact Hbefore|].
  split; [reflexivity|].
  exact (Hdated st Hreach "91ab" (Entry [Byte.x58] (seconds 90)) Hafter).
Defined.

(** C7, as stated, fails in two ways. The expiry is not always the exact
    sum: an image stored at 2147483647.9999998 expires at 2147483708.0.
    And a generate under an identifier already in use moves the expiry of
    the entry that was there. *)
Lemma expires_at_moves :
  let req := {| get_json := Return {| image_url := Some "http://images.example/a.png";
                                      text := None; logo_url := None |};
                host_url := "http://localhost:10000/" |} in
  let t0 := dyadic (2 ^ 53 - 1) (-22) in
  let rounded := step online (Generate req "7f3c" t0) initial in
  let once := step online (Generate req "7f3c" 0) initial in
  let twice := step online (Generate req "7f3c" (seconds 100)) once in
  (is_float t0 = true
   /\ cells rounded !! "7f3c" = Some (Entry [Byte.x58] (seconds 2147483708))
   /\ seconds 2147483708 <> t0 + seconds 60)
  /\ (cells once !! "7f3c" = Some (Entry [Byte.x58] (seconds 60))
      /\ cells twice !! "7f3c" = Some (Entry [Byte.x58] (seconds 160))
      /\ seconds 160 <> seconds 60).
Proof.
  intros req t0 rounded once twice. split.
  - split; [by_ticks|]. split; by_ticks.
  - split; [by_ticks|]. split; by_ticks.
Qed.

(** C8. A fetch of an entry that is present and not expired returns its
    payload and leaves the entry as it was, payload and [expires_at]
    included; every other entry that is not expired is left as it was
    too. *)
Theorem temp_image_does_not_touch_entry (image_id : string)
    (now_sweep now_check : Z) (store : gmap string entry) (e : entry) :
  store !! image_id = Some e ->
  now_sweep <= expires_at e -> now_check <= expires_at e ->
  fst (temp_image image_id now_sweep now_check store) = SendFile (data e) "image/jpeg"
  /\ snd (temp_image image_id now_sweep now_check store) !! image_id = Some e
  /\ (forall other e',
        store !! other = Some e' -> now_sweep <= expires_at e' ->
        snd (temp_image image_id now_sweep now_check store) !! other = Some e').
Proof.
  intros Hk Hsweep Hcheck. rewrite (temp_image_hit _ _ _ _ _ Hk Hsweep Hcheck).
  cbn [fst snd]. split; [reflexivity|]. split.
  - now apply lookup_cleanup_live.
  - intros other e' Hother Hlive. now apply lookup_cleanup_live.
Qed.

Lemma temp_image_does_not_touch_entry_witness :
  let store := store_image "91ab" [] (seconds 30)
                 (store_image "7f3c" [Byte.x58] 0 ∅) in
  store !! "7f3c" = Some (Entry [Byte.x58] (seconds 60))
  /\ fst (temp_image "7f3c" (seconds 45) (seconds 45) store)
     = SendFile [Byte.x58] "image/jpeg"
  /\ snd (temp_image "7f3c" (seconds 45) (seconds 45) store) !! "7f3c"
     = Some (Entry [Byte.x58] (seconds 60)).
Proof.
  intros store.
  assert (Hk : store !! "7f3c" = Some (Entry [Byte.x58] (seconds 60))) by by_ticks.
  split; [exact Hk|].
  destruct (temp_image_does_not_touch_entry "7f3c" (seconds 45) (seconds 45) store
              (Entry [Byte.x58] (seconds 60)) Hk)
    as (Hresp & Hkept & _); [by_ticks | by_ticks |].
  split; [exact Hresp | exact Hkept].
Defined.

(** C10. Both expiry comparisons are strict. At a clock reading equal to
    [expires_at] the sweep keeps the entry and the fetch returns the
    payload; the sweep drops an entry exactly when [now > expires_at], and
    a fetch of an entry in the store is answered 404 exactly when one of
    its two clock readings is greater than [expires_at]. *)
Theorem expiry_comparison_is_strict (image_id : string)
    (store : gmap string entry) (e : entry) :
  store !! image_id = Some e ->
  cleanup_ephemeral_store (expires_at e) store !! image_id = Some e
  /\ fst (temp_image image_id (expires_at e) (expires_at e) store)
     = SendFile (data e) "image/jpeg"
  /\ (forall now,
        cleanup_ephemeral_store now store !! image_id = None <-> now > expires_at e)
  /\ (forall now_sweep now_check,
        not_found (fst (temp_image image_id now_sweep now_check store)) = true
        <-> (now_sweep > expires_at e \/ now_check > expires_at e)).
Proof.
  intros Hk. split; [|split; [|split]].
  - apply (lookup_cleanup_live _ _ _ _ Hk). lia.
  - rewrite (temp_image_hit _ _ _ _ _ Hk); [reflexivity | lia | lia].
  - intros now. now apply lookup_cleanup_None_iff.
  - intros now_sweep now_check.
    destruct (Z_le_gt_dec now_sweep (expires_at e)) as [Hsweep|Hsweep].
    + destruct (Z_le_gt_dec now_check (expires_at e)) as [Hcheck|Hcheck].
      * rewrite (temp_image_hit _ _ _ _ _ Hk Hsweep Hcheck). cbn.
        split; [discriminate | lia].
      * rewrite (temp_image_late _ _ _ _ _ Hk Hsweep Hcheck). cbn.
        split; [now right | reflexivity].
    + rewrite (temp_image_swept _ _ _ _ _ Hk Hsweep). cbn.
      split; [now left | reflexivity].
Qed.

Lemma expiry_comparison_is_strict_witness :
  let store := store_image "7f3c" [Byte.x58] 0 ∅ in
  store !! "7f3c" = Some (Entry [Byte.x58] (seconds 60))
  /\ cleanup_ephemeral_store (seconds 60) store !! "7f3c"
     = Some (Entry [Byte.x58] (seconds 60))
  /\ fst (temp_image "7f3c" (seconds 60) (seconds 60) store)
     = SendFile [Byte.x58] "image/jpeg".
Proof.
  intros store.
  assert (Hk : store !! "7f3c" = Some (Entry [Byte.x58] (seconds 60))) by by_ticks.
  split; [exact Hk|].
  destruct (expiry_comparison_is_strict "7f3c" store (Entry [Byte.x58] (seconds 60)) Hk)
    as (Hsweep & Hfetch & _).
  split; [exact Hsweep | exact Hfetch].
Defined.

(** ** More about the wrapper: how full the lines are *)

Module GreedyFacts.
Import Str StrFacts Wrap WrapFacts.

Section Greedy.

Variable measure : string -> Z.
Variable max_width : Z.

Lemma grown_single (w : string) : grown measure max_width [w].
Proof. intros k [Hlo Hhi]. cbn in Hhi. lia. Qed.

(** Accepting one more word keeps the group grown. *)
Lemma grown_snoc (g : list string) (w : string) :
  grown measure max_width g ->
  measure (join " " (g ++ [w])%list) <= max_width ->
  grown measure max_width (g ++ [w])%list.
Proof.
  intros Hg Hfit k [Hlo Hhi]. rewrite length_app in Hhi. cbn in Hhi.
  destruct (decide (k <= length g)%nat) as [Hle|Hgt].
  - rewrite take_app_le by exact Hle. apply Hg. lia.
  - rewrite take_ge by (rewrite length_app; cbn; lia). exact Hfit.
Qed.

(** The loop invariant with the history of the measurements: the group
    under construction is [g] extended by [ext], and the groups are
    packed. *)
Lemma wrap_loop_packed (words : list string) : forall g lines,
  g <> [] -> grown measure max_width g ->
  exists ext gs,
    wrap_loop measure max_width words (join " " g) lines
      = (lines ++ map (join " ") ((g ++ ext) :: gs))%list
    /\ (ext ++ concat gs)%list = words
    /\ packed measure max_width ((g ++ ext)%list :: gs)
    /\ Forall (grown measure max_width) ((g ++ ext)%list :: gs)
    /\ Forall (fun g' => g' <> []) gs.
Proof.
  induction words as [|word rest IH]; intros g lines Hne Hg.
  - exists [], []. rewrite app_nil_r. cbn.
    repeat split; [constructor | now constructor | constructor].
  - cbn [wrap_loop].
    destruct (measure (join " " g +:+ " " +:+ word) <=? max_width) eqn:Hle.
    + rewrite <- (join_snoc " " word g Hne) in *.
      destruct (IH (g ++ [word])%list lines) as (ext & gs & Hout & Hcat & Hp & Hall & Hgs).
      { now destruct g. }
      { apply grown_snoc; [exact Hg | now apply Z.leb_le]. }
      exists (word :: ext), gs. rewrite <- List.app_assoc in *. cbn in *.
      rewrite Hout, Hcat. now repeat split.
    + destruct (IH [word] (lines ++ [join " " g])%list)
        as (ext & gs & Hout & Hcat & Hp & Hall & Hgs).
      { discriminate. }
      { apply grown_single. }
      cbn [join app] in Hout, Hp, Hall.
      exists [], ((word :: ext) :: gs). rewrite app_nil_r, Hout, <- List.app_assoc.
      cbn. rewrite Hcat. repeat split.
      * constructor; [apply Z.leb_gt in Hle; lia | exact Hp].
      * now constructor.
      * constructor; [discriminate | exact Hgs].
Qed.

Lemma wrap_text_packed (text : string) :
  split text <> [] ->
  exists gs,
    wrap_text measure max_width text = map (join " ") gs
    /\ concat gs = split text
    /\ packed measure max_width gs
    /\ Forall (grown measure max_width) gs
    /\ Forall (fun g => g <> []) gs.
Proof.
  unfold wrap_text. intros Hne. destruct (split text) as [|first rest]; [congruence|].
  destruct (wrap_loop_packed rest [first] []) as (ext & gs & Hout & Hcat & Hp & Hall & Hgs).
  - discriminate.
  - apply grown_single.
  - cbn [join app] in *. exists ((first :: ext) :: gs).
    split; [exact Hout|]. split; [cbn; now rewrite Hcat|].
    split; [exact Hp|]. split; [exact Hall|].
    constructor; [discriminate | exact Hgs].
Qed.

(** Two neighbours in a packed list: the first word of the second did not
    fit behind the first. *)
Lemma packed_adjacent (gs : list (list string)) :
  packed measure max_width gs ->
  forall before g g2 after, gs = (before ++ g :: g2 :: after)%list ->
  exists w g', g2 = w :: g' /\ max_width < measure (join " " g +:+ " " +:+ w).
Proof.
  induction 1 as [g0 | g0 w0 g0' gs0 Hover Hp IH]; intros before g g2 after E.
  - destruct before as [|? [|? ?]]; discriminate.
  - destruct before as [|b before]; cbn in E.
    + injection E as <- <- <-. now exists w0, g0'.
    + injection E as <- E. now apply (IH before g g2 after).
Qed.

(** A grown group wrapped again comes back as one line. *)
Lemma wrap_loop_grown (ws : list string) : forall g lines,
  g <> [] -> grown measure max_width (g ++ ws)%list ->
  wrap_loop measure max_width ws (join " " g) lines
  = (lines ++ [join " " (g ++ ws)%list])%list.
Proof.
  induction ws as [|word rest IH]; intros g lines Hne Hg.
  - now rewrite app_nil_r.
  - cbn [wrap_loop]. rewrite <- (join_snoc " " word g Hne).
    assert (Hfit : measure (join " " (g ++ [word])%list) <= max_width).
    { specialize (Hg (S (length g))).
      replace (g ++ word :: rest)%list with ((g ++ [word]) ++ rest)%list in Hg
        by now rewrite <- List.app_assoc.
      rewrite take_app_length' in Hg by (rewrite length_app; cbn; lia).
      apply Hg. rewrite !length_app. cbn. destruct g; [congruence | cbn; lia]. }
    apply Z.leb_le in Hfit. rewrite Hfit.
    rewrite IH; [now rewrite <- List.app_assoc | now destruct g |].
    now rewrite <- List.app_assoc.
Qed.

(** When no line with a separator in it fits, every word is closed at
    once. *)
Lemma wrap_loop_none_fits (words : list string) : forall current_line lines,
  (forall s, has_space s = true -> max_width < measure s) ->
  wrap_loop measure max_width words current_line lines
  = (lines ++ current_line :: words)%list.
Proof.
  induction words as [|word rest IH]; intros current_line lines Hnone; [reflexivity|].
  cbn [wrap_loop].
  assert (Hover : max_width < measure (current_line +:+ " " +:+ word)).
  { apply Hnone. rewrite !has_space_app. cbn. now rewrite orb_true_r. }
  apply Z.leb_gt in Hover. rewrite Hover, IH by exact Hnone.
  now rewrite <- List.app_assoc.
Qed.

End Greedy.

(** The join of the first [k] parts opens the join of all of them. *)
Lemma join_take_prefix (sep : string) (g : list string) (k : nat) :
  (1 <= k)%nat -> exists suffix, join sep g = join sep (take k g) +:+ suffix.
Proof.
  intros Hk. destruct (drop k g) as [|d ds] eqn:Hdrop.
  - exists "". rewrite app_empty_r. rewrite <- (take_drop k g) at 1.
    now rewrite Hdrop, app_nil_r.
  - destruct (take k g) as [|t ts] eqn:Htake.
    + exfalso. destruct g as [|x g]; [now rewrite drop_nil in Hdrop|].
      destruct k; [lia | discriminate].
    + exists (sep +:+ join sep (d :: ds)).
      rewrite <- (take_drop k g) at 1. rewrite Htake, Hdrop.
      now apply join_app.
Qed.

Lemma length_concat_nonempty {A : Type} (gs : list (list A)) :
  Forall (fun g => g <> []) gs -> (length gs <= length (concat gs))%nat.
Proof.
  induction 1 as [|g gs Hg _ IH]; [reflexivity|].
  cbn. rewrite length_app. destruct g; [congruence | cbn; lia].
Qed.

(** The tokens of the rejoined lines are the tokens of the text. *)
Lemma split_join_wrap_text (measure : string -> Z) (max_width : Z) (text : string) :
  split (join " " (wrap_text measure max_width text)) = split text.
Proof.
  destruct (split text) as [|first rest] eqn:E.
  - unfold wrap_text. now rewrite E.
  - assert (Hne : split text <> []) by congruence. rewrite <- E.
    destruct (wrap_text_groups measure max_width text Hne) as (gs & -> & Hcat & Hall).
    rewrite join_concat.
    + rewrite Hcat. apply split_join, split_words.
    + eapply Forall_impl; [exact Hall|]. now intros g [Hg _].
Qed.

End GreedyFacts.

Import GreedyFacts.

(** X1. Lines are closed greedily: for two neighbouring lines of the
    output, the first line followed by a space and the first word of the
    second measures more than [max_width]. *)
Theorem wrap_text_greedy (measure : string -> Z) (max_width : Z) (text : string)
    (before : list string) (a b : string) (after : list string) :
  wrap_text measure max_width text = (before ++ a :: b :: after)%list ->
  exists w rest, split b = w :: rest /\ max_width < measure (a +:+ " " +:+ w).
Proof.
  intros Hout.
  destruct (split text) as [|first ws] eqn:E.
  { unfold wrap_text in Hout. rewrite E in Hout.
    destruct before as [|? [|? ?]]; discriminate. }
  assert (Hne : split text <> []) by congruence.
  destruct (wrap_text_packed measure max_width text Hne)
    as (gs & Hmap & Hcat & Hp & _ & _).
  rewrite Hmap in Hout.
  apply map_eq_app in Hout as (pre & tl & -> & <- & Htl).
  destruct tl as [|g [|g2 post]]; try discriminate.
  cbn in Htl. injection Htl as <- <- <-.
  destruct (packed_adjacent measure max_width _ Hp pre g g2 post eq_refl)
    as (w & g' & -> & Hover).
  exists w, g'. split; [|exact Hover].
  apply split_join. apply (group_words text (pre ++ g :: (w :: g') :: post) _ Hcat).
  apply in_or_app. right. right. now left.
Qed.

Lemma wrap_text_greedy_witness :
  wrap_text (fun s => len s * 10) 139 "HELLO WORLD FOO BAR"
  = ([] ++ "HELLO WORLD" :: "FOO BAR" :: [])%list
  /\ exists w rest,
       split "FOO BAR" = w :: rest
       /\ 139 < (fun s => len s * 10) ("HELLO WORLD" +:+ " " +:+ w).
Proof.
  assert (Hout : wrap_text (fun s => len s * 10) 139 "HELLO WORLD FOO BAR"
                 = ([] ++ "HELLO WORLD" :: "FOO BAR" :: [])%list) by reflexivity.
  split; [exact Hout|].
  exact (wrap_text_greedy (fun s => len s * 10) 139 "HELLO WORLD FOO BAR"
           [] "HELLO WORLD" "FOO BAR" [] Hout).
Defined.

(** X2. Wrapping is stable: a line of the output, wrapped on its own with
    the same measure and [max_width], comes back as that one line. *)
Theorem wrap_text_line_stable (measure : string -> Z) (max_width : Z)
    (text line : string) :
  In line (wrap_text measure max_width text) ->
  wrap_text measure max_width line = [line].
Proof.
  intros Hin.
  destruct (split text) as [|first ws] eqn:E.
  { unfold wrap_text in Hin. rewrite E in Hin.
    destruct Hin as [<-|[]]. reflexivity. }
  assert (Hne : split text <> []) by congruence.
  destruct (wrap_text_packed measure max_width text Hne)
    as (gs & Hmap & Hcat & _ & Hgrown & Hgs).
  rewrite Hmap in Hin. apply in_map_iff in Hin as (g & <- & Hin).
  pose proof (group_words text gs g Hcat Hin) as Hws.
  rewrite List.Forall_forall in Hgrown, Hgs.
  specialize (Hgrown g Hin). specialize (Hgs g Hin).
  unfold wrap_text. rewrite (split_join g Hws).
  destruct g as [|w g]; [congruence|].
  apply (wrap_loop_grown measure max_width g [w] []); [discriminate | exact Hgrown].
Qed.

Lemma wrap_text_line_stable_witness :
  In "HELLO WORLD" (wrap_text (fun s => len s * 10) 139 "HELLO WORLD FOO")
  /\ wrap_text (fun s => len s * 10) 139 "HELLO WORLD" = ["HELLO WORLD"].
Proof.
  assert (Hin : In "HELLO WORLD" (wrap_text (fun s => len s * 10) 139 "HELLO WORLD FOO"))
    by (left; reflexivity).
  split; [exact Hin|].
  exact (wrap_text_line_stable (fun s => len s * 10) 139 "HELLO WORLD FOO" "HELLO WORLD" Hin).
Defined.

(** X3. The output is never empty and never has more lines than the text
    has tokens (one line for a text without tokens). *)
Theorem wrap_text_line_count (measure : string -> Z) (max_width : Z) (text : string) :
  (1 <= length (wrap_text measure max_width text)
   <= Nat.max 1 (length (split text)))%nat.
Proof.
  destruct (split text) as [|first ws] eqn:E.
  { unfold wrap_text. rewrite E. cbn. lia. }
  assert (Hne : split text <> []) by congruence. rewrite <- E.
  destruct (wrap_text_groups measure max_width text Hne) as (gs & -> & Hcat & Hall).
  rewrite length_map, <- Hcat.
  assert (Hgs : Forall (fun g => g <> []) gs).
  { eapply Forall_impl; [exact Hall|]. now intros g [Hg _]. }
  pose proof (length_concat_nonempty gs Hgs).
  destruct gs as [|g gs]; [cbn in Hcat; congruence | cbn in *; lia].
Qed.

(** X4. Wrapping the lines joined with single spaces gives the same lines
    again. *)
Theorem wrap_text_rejoin (measure : string -> Z) (max_width : Z) (text : string) :
  wrap_text measure max_width (join " " (wrap_text measure max_width text))
  = wrap_text measure max_width text.
Proof.
  unfold wrap_text at 1.
  rewrite (split_join_wrap_text measure max_width text). reflexivity.
Qed.

(** X5. When no line that holds a separator fits, every word of the text
    is a line of its own, in order. *)
Theorem wrap_text_one_word_per_line (measure : string -> Z) (max_width : Z)
    (text : string) :
  split text <> [] ->
  (forall s, has_space s = true -> max_width < measure s) ->
  wrap_text measure max_width text = split text.
Proof.
  intros Hne Hnone. unfold wrap_text.
  destruct (split text) as [|first ws]; [congruence|].
  now rewrite wrap_loop_none_fits.
Qed.

Lemma wrap_text_one_word_per_line_witness :
  split "A BB  CCC" <> []
  /\ (forall s, has_space s = true -> 0 < (fun s => len s * 10) s)
  /\ wrap_text (fun s => len s * 10) 0 "A BB  CCC" = split "A BB  CCC".
Proof.
  assert (Hnone : forall s, has_space s = true -> 0 < (fun s => len s * 10) s).
  { intros [|c s] Hs; [discriminate|]. unfold len. cbn [String.length]. lia. }
  split; [vm_compute; discriminate|]. split; [exact Hnone|].
  apply (wrap_text_one_word_per_line (fun s => len s * 10) 0 "A BB  CCC");
    [vm_compute; discriminate | exact Hnone].
Defined.

(** X6. With a measure that never shrinks when text is appended, a text
    whose tokens joined by single spaces fit in [max_width] is wrapped to
    that one line. *)
Theorem wrap_text_single_line (measure : string -> Z) (max_width : Z)
    (text : string) :
  split text <> [] ->
  (forall s t, measure s <= measure (s +:+ t)) ->
  measure (join " " (split text)) <= max_width ->
  wrap_text measure max_width text = [join " " (split text)].
Proof.
  intros Hne Hmono Hfit. unfold wrap_text.
  destruct (split text) as [|first ws]; [congruence|].
  apply (wrap_loop_grown measure max_width ws [first] []); [discriminate|].
  intros k [Hlo _].
  destruct (join_take_prefix " " (first :: ws) k) as (suffix & E); [lia|].
  cbn [app] in *. rewrite E in Hfit. specialize (Hmono (join " " (take k (first :: ws))) suffix).
  lia.
Qed.

Lemma wrap_text_single_line_witness :
  split " HELLO   WORLD " <> []
  /\ wrap_text (fun s => len s * 10) 139 " HELLO   WORLD " = ["HELLO WORLD"].
Proof.
  split; [vm_compute; discriminate|].
  apply (wrap_text_single_line (fun s => len s * 10) 139 " HELLO   WORLD ").
  - vm_compute; discriminate.
  - intros s t. unfold len. induction s as [|c s IH]; [cbn; lia|].
    rewrite app_cons. cbn [String.length]. lia.
  - vm_compute; discriminate.
Defined.

(** ** More about the store and the handlers *)

Module ServingFacts.
Import Str StrFacts Clock ClockFacts Store Handler StoreFacts HandlerFacts.

(** What a fetch leaves under any key. *)
Lemma lookup_temp_image (k image_id : string) (now_sweep now_check : Z)
    (store : gmap string entry) :
  snd (temp_image image_id now_sweep now_check store) !! k
  = match store !! k with
    | Some e =>
        if (now_sweep >? expires_at e)
           || (bool_decide (k = image_id) && (now_check >? expires_at e))
        then None else Some e
    | None => None
    end.
Proof.
  unfold temp_image.
  destruct (cleanup_ephemeral_store now_sweep store !! image_id) as [found|] eqn:Hid.
  - apply lookup_cleanup_Some in Hid as [Hid Hlive].
    destruct (now_check >? expires_at found) eqn:Hcheck; cbn [snd].
    + destruct (decide (k = image_id)) as [->|Hne].
      * rewrite lookup_delete_eq, Hid, Hcheck, bool_decide_eq_true_2 by reflexivity.
        now rewrite orb_true_r.
      * rewrite lookup_delete_ne by congruence. rewrite lookup_cleanup.
        destruct (store !! k) as [e|]; [|reflexivity].
        now rewrite bool_decide_eq_false_2, orb_false_r by exact Hne.
    + rewrite lookup_cleanup. destruct (store !! k) as [e|] eqn:Hk; [|reflexivity].
      destruct (decide (k = image_id)) as [->|Hne].
      * replace e with found by congruence.
        now rewrite Hcheck, andb_false_r, orb_false_r.
      * now rewrite bool_decide_eq_false_2, orb_false_r by exact Hne.
  - cbn [snd]. rewrite lookup_cleanup.
    destruct (store !! k) as [e|] eqn:Hk; [|reflexivity].
    destruct (now_sweep >? expires_at e) eqn:Hsweep; [reflexivity|]. cbn.
    destruct (decide (k = image_id)) as [->|Hne].
    + rewrite lookup_cleanup, Hk, Hsweep in Hid. discriminate.
    + now rewrite bool_decide_eq_false_2 by exact Hne.
Qed.

(** A fetch that sends a file found a live entry. *)
Lemma temp_image_sent (image_id : string) (now_sweep now_check : Z)
    (store : gmap string entry) (body : bytes) (mimetype : string) :
  fst (temp_image image_id now_sweep now_check store) = SendFile body mimetype ->
  mimetype = "image/jpeg"
  /\ exists e, store !! image_id = Some e /\ data e = body
               /\ now_sweep <= expires_at e /\ now_check <= expires_at e.
Proof.
  unfold temp_image.
  destruct (cleanup_ephemeral_store now_sweep store !! image_id) as [found|] eqn:Hid;
    [|discriminate].
  apply lookup_cleanup_Some in Hid as [Hid Hlive].
  destruct (now_check >? expires_at found) eqn:Hcheck; [discriminate|].
  cbn [fst]. intros [= <- <-]. split; [reflexivity|].
  exists found. repeat split; [exact Hid | exact Hlive | lia].
Qed.

(** Only trailing copies of [ch] are taken off. *)
Lemma rstrip_repeat (ch : ascii) (base : string) (n : nat) :
  last_char base <> Some ch -> rstrip ch (base +:+ repeat_char ch n) = base.
Proof.
  assert (Htail : rstrip ch (repeat_char ch n) = "").
  { induction n as [|n IH]; [reflexivity|]. cbn. now rewrite IH, Ascii.eqb_refl. }
  induction base as [|c base IH]; intros Hlast; [exact Htail|].
  rewrite app_cons. cbn [rstrip]. destruct base as [|d base].
  - change ("" +:+ repeat_char ch n) with (repeat_char ch n). rewrite Htail.
    destruct (Ascii.eqb c ch) eqn:E; [|reflexivity].
    apply Ascii.eqb_eq in E. subst. now cbn in Hlast.
  - rewrite IH by exact Hlast. reflexivity.
Qed.

(** The drawing loop is the fold of [draw_text] over the positions. *)
Lemma draw_lines_fold (env : collaborators) (fnt : font env) (lines : list string) :
  forall (img : image env) (text_x current_y line_height : Z),
  draw_lines env img fnt lines text_x current_y line_height
  = fold_left (fun drawn p => draw_text env drawn (fst (fst p), snd (fst p)) (snd p) fnt)
      (line_positions lines text_x current_y line_height) img.
Proof.
  induction lines as [|line rest IH]; intros img text_x current_y line_height;
    [reflexivity|].
  cbn [draw_lines line_positions fold_left]. now rewrite IH.
Qed.

Lemma lookup_line_positions (lines : list string) :
  forall (text_x current_y line_height : Z) (i : nat) (line : string),
  lines !! i = Some line ->
  line_positions lines text_x current_y line_height !! i
  = Some (text_x, current_y + Z.of_nat i * line_height, line).
Proof.
  induction lines as [|l rest IH]; intros text_x current_y line_height i line Hi;
    [discriminate|].
  destruct i as [|i]; cbn in *.
  - injection Hi as ->. do 3 f_equal. lia.
  - rewrite (IH _ _ _ _ _ Hi). do 3 f_equal. lia.
Qed.

Lemma length_line_positions (lines : list string) :
  forall (text_x current_y line_height : Z),
  length (line_positions lines text_x current_y line_height) = length lines.
Proof.
  induction lines as [|l rest IH]; intros; [reflexivity|]. cbn. now rewrite IH.
Qed.

End ServingFacts.

Import ServingFacts.

(** X7. Sweeps compose: sweeping at [now1] and at a later or equal [now2],
    in either order, leaves what one sweep at [now2] leaves; in particular
    a second sweep at the same time changes nothing. *)
Theorem cleanup_twice (now1 now2 : Z) (store : gmap string entry) :
  now1 <= now2 ->
  cleanup_ephemeral_store now2 (cleanup_ephemeral_store now1 store)
  = cleanup_ephemeral_store now2 store
  /\ cleanup_ephemeral_store now1 (cleanup_ephemeral_store now2 store)
     = cleanup_ephemeral_store now2 store.
Proof.
  intros Hle. split; apply map_eq; intros k; rewrite !lookup_cleanup;
    destruct (store !! k) as [e|]; try reflexivity;
    destruct (now1 >? expires_at e) eqn:E1; destruct (now2 >? expires_at e) eqn:E2;
    try reflexivity; try lia; now rewrite ?E1, ?E2.
Qed.

Lemma cleanup_twice_witness :
  let store := store_image "old" [] 0 (store_image "new" [Byte.x58] (seconds 50) ∅) in
  seconds 70 <= seconds 100
  /\ cleanup_ephemeral_store (seconds 100) (cleanup_ephemeral_store (seconds 70) store)
     = cleanup_ephemeral_store (seconds 100) store.
Proof.
  intros store.
  assert (Hle : seconds 70 <= seconds 100) by by_ticks.
  split; [exact Hle|].
  exact (proj1 (cleanup_twice (seconds 70) (seconds 100) store Hle)).
Defined.

(** X8. A fetch sends a file only for an entry that is in the store under
    the requested identifier and is not past its [expires_at] at either
    clock reading; the body is that entry's payload and the type is
    image/jpeg. *)
Theorem temp_image_serves_only_live (image_id : string) (now_sweep now_check : Z)
    (store : gmap string entry) (body : bytes) (mimetype : string) :
  fst (temp_image image_id now_sweep now_check store) = SendFile body mimetype ->
  mimetype = "image/jpeg"
  /\ exists e, store !! image_id = Some e /\ data e = body
               /\ now_sweep <= expires_at e /\ now_check <= expires_at e.
Proof. apply temp_image_sent. Qed.

Lemma temp_image_serves_only_live_witness :
  let store := store_image "7f3c" [Byte.x58] 0 ∅ in
  fst (temp_image "7f3c" (seconds 10) (seconds 12) store)
  = SendFile [Byte.x58] "image/jpeg"
  /\ exists e, store !! "7f3c" = Some e /\ data e = [Byte.x58]
               /\ seconds 10 <= expires_at e /\ seconds 12 <= expires_at e.
Proof.
  intros store.
  assert (Hsent : fst (temp_image "7f3c" (seconds 10) (seconds 12) store)
                  = SendFile [Byte.x58] "image/jpeg") by by_ticks.
  split; [exact Hsent|].
  exact (proj2 (temp_image_serves_only_live "7f3c" (seconds 10) (seconds 12) store
                  [Byte.x58] "image/jpeg" Hsent)).
Defined.

(** X9. The store after a fetch of any identifier, found or not: every
    entry past its [expires_at] at the sweep reading is gone, the
    requested entry is gone as well when it is past its [expires_at] at
    the check reading, and every other entry is there unchanged; nothing
    is added. *)
Theorem temp_image_store_after (k image_id : string) (now_sweep now_check : Z)
    (store : gmap string entry) :
  snd (temp_image image_id now_sweep now_check store) !! k
  = match store !! k with
    | Some e =>
        if (now_sweep >? expires_at e)
           || (bool_decide (k = image_id) && (now_check >? expires_at e))
        then None else Some e
    | None => None
    end.
Proof. apply lookup_temp_image. Qed.

(** X10. An identifier that is not in the store is answered 404 "Image
    not found or expired", and the fetch still sweeps the store. *)
Theorem temp_image_unknown (image_id : string) (now_sweep now_check : Z)
    (store : gmap string entry) :
  store !! image_id = None ->
  temp_image image_id now_sweep now_check store
  = (Abort 404 "Image not found or expired", cleanup_ephemeral_store now_sweep store).
Proof.
  intros Hk. unfold temp_image. now rewrite lookup_cleanup, Hk.
Qed.

Lemma temp_image_unknown_witness :
  let store := store_image "7f3c" [Byte.x58] 0 ∅ in
  store !! "91ab" = None
  /\ temp_image "91ab" (seconds 100) (seconds 100) store
     = (Abort 404 "Image not found or expired",
        cleanup_ephemeral_store (seconds 100) store).
Proof.
  intros store.
  assert (Hk : store !! "91ab" = None) by reflexivity.
  split; [exact Hk|].
  exact (temp_image_unknown "91ab" (seconds 100) (seconds 100) store Hk).
Defined.

(** X11. The answer "Image has expired" needs the clock to move between
    the two readings: it is given only for an entry in the store that is
    not past its [expires_at] at the sweep reading and is past it at the
    check reading. *)
Theorem temp_image_has_expired (image_id : string) (now_sweep now_check : Z)
    (store : gmap string entry) (status : Z) :
  fst (temp_image image_id now_sweep now_check store) = Abort status "Image has expired" ->
  status = 404 /\ now_sweep < now_check
  /\ exists e, store !! image_id = Some e
               /\ now_sweep <= expires_at e /\ expires_at e < now_check.
Proof.
  unfold temp_image.
  destruct (cleanup_ephemeral_store now_sweep store !! image_id) as [found|] eqn:Hid;
    [|discriminate].
  apply lookup_cleanup_Some in Hid as [Hid Hlive].
  destruct (now_check >? expires_at found) eqn:Hcheck; [|discriminate].
  cbn [fst]. intros [= <-]. split; [reflexivity|]. split; [lia|].
  exists found. repeat split; [exact Hid | exact Hlive | lia].
Qed.

Lemma temp_image_has_expired_witness :
  let store := store_image "7f3c" [Byte.x58] 0 ∅ in
  fst (temp_image "7f3c" (seconds 60) (seconds 61) store) = Abort 404 "Image has expired"
  /\ seconds 60 < seconds 61.
Proof.
  intros store.
  assert (Hlate : fst (temp_image "7f3c" (seconds 60) (seconds 61) store)
                  = Abort 404 "Image has expired") by by_ticks.
  split; [exact Hlate|].
  exact (proj1 (proj2 (temp_image_has_expired "7f3c" (seconds 60) (seconds 61) store 404
                         Hlate))).
Defined.

(** X12. Nothing comes back: after a fetch that was answered 404 the
    identifier is not in the store, and every later fetch of it, whatever
    the clock says, is answered 404 "Image not found or expired". *)
Theorem temp_image_no_return (image_id : string) (now_sweep now_check : Z)
    (store : gmap string entry) :
  not_found (fst (temp_image image_id now_sweep now_check store)) = true ->
  snd (temp_image image_id now_sweep now_check store) !! image_id = None
  /\ forall later_sweep later_check,
       fst (temp_image image_id later_sweep later_check
              (snd (temp_image image_id now_sweep now_check store)))
       = Abort 404 "Image not found or expired".
Proof.
  intros Hmiss.
  assert (Hgone : snd (temp_image image_id now_sweep now_check store) !! image_id = None).
  { revert Hmiss. unfold temp_image.
    destruct (cleanup_ephemeral_store now_sweep store !! image_id) as [found|] eqn:Hid.
    - destruct (now_check >? expires_at found); cbn; [intros _|discriminate].
      apply lookup_delete_eq.
    - now intros _. }
  split; [exact Hgone|]. intros later_sweep later_check.
  unfold temp_image at 1. now rewrite lookup_cleanup, Hgone.
Qed.

Lemma temp_image_no_return_witness :
  let store := store_image "7f3c" [Byte.x58] 0 ∅ in
  not_found (fst (temp_image "7f3c" (seconds 61) (seconds 61) store)) = true
  /\ fst (temp_image "7f3c" (seconds 5) (seconds 5)
            (snd (temp_image "7f3c" (seconds 61) (seconds 61) store)))
     = Abort 404 "Image not found or expired".
Proof.
  intros store.
  assert (Hmiss : not_found (fst (temp_image "7f3c" (seconds 61) (seconds 61) store))
                  = true) by by_ticks.
  split; [exact Hmiss|].
  exact (proj2 (temp_image_no_return "7f3c" (seconds 61) (seconds 61) store Hmiss)
           (seconds 5) (seconds 5)).
Defined.

(** X13. A generate request ends in one of two ways. Either a step raised:
    the answer is 400 with the raised message and the store is unchanged.
    Or every step went through: the answer is 200, the rendered image is
    under the identifier with [expires_at] the float sum of [now] and 60,
    replacing whatever was there, and every other entry, expired or not,
    is untouched. *)
Theorem edit_image_outcome (env : collaborators) (req : request)
    (image_id : string) (now : Z) (store : gmap string entry) :
  (exists msg,
      raises env req msg
      /\ edit_image env req image_id now store = (Jsonify 400 [("error", msg)], store))
  \/ (exists output temp_url,
        render env req = Return output
        /\ fst (edit_image env req image_id now store)
           = Jsonify 200 [("message", "Image generated successfully");
                          ("temp_image_url", temp_url)]
        /\ snd (edit_image env req image_id now store) !! image_id
           = Some {| data := output; expires_at := float_add now (seconds 60) |}
        /\ forall k, k <> image_id ->
             snd (edit_image env req image_id now store) !! k = store !! k).
Proof.
  unfold edit_image. destruct (render env req) as [msg|output] eqn:Hrender.
  - left. exists msg. split; [now apply render_raises | reflexivity].
  - right. eexists output, _. cbn [fst snd]. unfold store_image.
    split; [reflexivity|]. split; [reflexivity|]. split.
    + apply lookup_insert_eq.
    + intros k Hne. now apply lookup_insert_ne.
Qed.

(** X14. The retrieval address: when the host address is [base] followed
    by any number of slashes and [base] does not end with a slash, a
    successful generate answers with [base], "/temp_image/" and the
    identifier. *)
Theorem edit_image_temp_url (env : collaborators) (req : request)
    (image_id : string) (now : Z) (store : gmap string entry)
    (output : bytes) (base : string) (n : nat) :
  render env req = Return output ->
  host_url req = base +:+ repeat_char "/" n ->
  last_char base <> Some "/"%char ->
  fst (edit_image env req image_id now store)
  = Jsonify 200 [("message", "Image generated successfully");
                 ("temp_image_url", base +:+ "/temp_image/" +:+ image_id)].
Proof.
  intros Hrender Hhost Hbase. unfold edit_image.
  now rewrite Hrender, Hhost, rstrip_repeat.
Qed.

Lemma edit_image_temp_url_witness :
  let req := {| get_json := Return {| image_url := Some "http://images.example/a.png";
                                      text := None; logo_url := None |};
                host_url := "http://localhost:10000//" |} in
  render online req = Return [Byte.x58]
  /\ fst (edit_image online req "7f3c" 0 ∅)
     = Jsonify 200 [("message", "Image generated successfully");
                    ("temp_image_url", "http://localhost:10000/temp_image/7f3c")].
Proof.
  intros req.
  assert (Hrender : render online req = Return [Byte.x58]) by reflexivity.
  split; [exact Hrender|].
  apply (edit_image_temp_url online req "7f3c" 0 ∅ [Byte.x58] "http://localhost:10000" 2);
    [exact Hrender | reflexivity | discriminate].
Defined.

(** X15. From generate to fetch: after a successful generate at [t0], and
    any run of requests that store under other identifiers and read the
    clock no later than the float sum of [t0] and 60 where it matters for
    this one, a fetch with both readings no later than that sum sends the
    rendered image; with float readings throughout, the same holds for
    readings no later than 60 seconds after [t0]. *)
Theorem generate_then_fetch (env : collaborators) (req : request)
    (image_id : string) (t0 : Z) (output : bytes) (evs : list event) (st : state)
    (now_sweep now_check : Z) :
  render env req = Return output ->
  (Forall (quiet image_id (float_add t0 (seconds 60))) evs ->
   now_sweep <= float_add t0 (seconds 60) -> now_check <= float_add t0 (seconds 60) ->
   fst (temp_image image_id now_sweep now_check
          (cells (run env evs (step env (Generate req image_id t0) st))))
   = SendFile output "image/jpeg")
  /\ (Forall float_readings evs ->
      is_float now_sweep = true -> is_float now_check = true ->
      Forall (quiet image_id (t0 + seconds 60)) evs ->
      now_sweep <= t0 + seconds 60 -> now_check <= t0 + seconds 60 ->
      fst (temp_image image_id now_sweep now_check
             (cells (run env evs (step env (Generate req image_id t0) st))))
      = SendFile output "image/jpeg").
Proof.
  intros Hrender. split.
  - now apply fetch_after_quiet_run.
  - intros Hfloats Fsweep Fcheck Hquiet Hsweep Hcheck.
    apply fetch_after_quiet_run; [exact Hrender | | |].
    + rewrite List.Forall_forall in *. intros ev Hin.
      apply quiet_float_sum; [now apply Hfloats | now apply Hquiet].
    + now apply float_le_round64.
    + now apply float_le_round64.
Qed.

Lemma generate_then_fetch_witness :
  let req := {| get_json := Return {| image_url := Some "http://images.example/a.png";
                                      text := None; logo_url := None |};
                host_url := "http://localhost:10000/" |} in
  let evs := [Generate req "91ab" (seconds 20); Fetch "91ab" (seconds 30) (seconds 30);
              Fetch "7f3c" (seconds 40) (seconds 40); Sweep (seconds 50)] in
  Forall (quiet "7f3c" (float_add 0 (seconds 60))) evs
  /\ fst (temp_image "7f3c" (seconds 60) (seconds 60)
            (cells (run online evs (step online (Generate req "7f3c" 0) initial))))
     = SendFile [Byte.x58] "image/jpeg".
Proof.
  intros req evs.
  assert (Hquiet : Forall (quiet "7f3c" (float_add 0 (seconds 60))) evs).
  { apply List.Forall_cons; [cbn [quiet]; discriminate|].
    apply List.Forall_cons;
      [cbn [quiet]; split; [by_ticks | intros Hsame; discriminate Hsame]|].
    apply List.Forall_cons; [cbn [quiet]; split; [by_ticks | intros _; by_ticks]|].
    apply List.Forall_cons; [cbn [quiet]; by_ticks|]. apply List.Forall_nil. }
  assert (Hlast : seconds 60 <= float_add 0 (seconds 60)) by by_ticks.
  split; [exact Hquiet|].
  exact (proj1 (generate_then_fetch online req "7f3c" 0 [Byte.x58] evs initial
                  (seconds 60) (seconds 60) eq_refl) Hquiet Hlast Hlast).
Defined.

(** X16. No image is served past its expiry: in every state the server
    can reach, a fetch that sends a file does so with both clock readings
    at most the float sum of 60 and the reading at which the image under
    that identifier was stored, and at most 60 seconds after that reading
    when the exact sum is a float. *)
Theorem served_within_lifetime (env : collaborators) (st : state)
    (image_id : string) (now_sweep now_check : Z) (body : bytes) (mimetype : string) :
  reachable env st ->
  fst (temp_image image_id now_sweep now_check (cells st)) = SendFile body mimetype ->
  exists t, inserted_at st !! image_id = Some t
            /\ now_sweep <= float_add t (seconds 60)
            /\ now_check <= float_add t (seconds 60)
            /\ (is_float (t + seconds 60) = true ->
                now_sweep - t <= seconds 60 /\ now_check - t <= seconds 60).
Proof.
  intros Hreach Hsent.
  apply temp_image_sent in Hsent as (_ & e & Hk & _ & Hsweep & Hcheck).
  destruct (reachable_dated env st Hreach image_id e Hk) as (t & Ht & Hexp).
  unfold IMAGE_LIFETIME in Hexp. exists t. rewrite <- Hexp.
  split; [exact Ht|]. split; [exact Hsweep|]. split; [exact Hcheck|].
  intros Fsum. rewrite (float_add_exact _ _ Fsum) in Hexp. lia.
Qed.

Lemma served_within_lifetime_witness :
  let req := {| get_json := Return {| image_url := Some "http://images.example/a.png";
                                      text := None; logo_url := None |};
                host_url := "http://localhost:10000/" |} in
  let st := step online (Generate req "7f3c" (seconds 100)) initial in
  reachable online st
  /\ fst (temp_image "7f3c" (seconds 120) (seconds 130) (cells st))
     = SendFile [Byte.x58] "image/jpeg"
  /\ exists t, inserted_at st !! "7f3c" = Some t
               /\ seconds 120 <= float_add t (seconds 60)
               /\ seconds 130 <= float_add t (seconds 60)
               /\ (is_float (t + seconds 60) = true ->
                   seconds 120 - t <= seconds 60 /\ seconds 130 - t <= seconds 60).
Proof.
  intros req st.
  assert (Hreach : reachable online st) by (repeat constructor).
  assert (Hsent : fst (temp_image "7f3c" (seconds 120) (seconds 130) (cells st))
                  = SendFile [Byte.x58] "image/jpeg") by by_ticks.
  split; [exact Hreach|]. split; [exact Hsent|].
  exact (served_within_lifetime online st "7f3c" (seconds 120) (seconds 130)
           [Byte.x58] "image/jpeg" Hreach Hsent).
Defined.

(** X17. The drawing loop draws every line once, in order, line number
    [i] (from 0) at [text_x] across and [current_y + i * line_height]
    down. *)
Theorem draw_lines_positions (env : collaborators) (img : image env) (fnt : font env)
    (lines : list string) (text_x current_y line_height : Z) :
  draw_lines env img fnt lines text_x current_y line_height
  = fold_left (fun drawn p => draw_text env drawn (fst (fst p), snd (fst p)) (snd p) fnt)
      (line_positions lines text_x current_y line_height) img
  /\ length (line_positions lines text_x current_y line_height) = length lines
  /\ forall (i : nat) (line : string),
       lines !! i = Some line ->
       line_positions lines text_x current_y line_height !! i
       = Some (text_x, current_y + Z.of_nat i * line_height, line).
Proof.
  split; [apply draw_lines_fold|]. split; [apply length_line_positions|].
  intros i line. apply lookup_line_positions.
Qed.

Lemma draw_lines_positions_witness :
  draw_lines recording [] tt ["HELLO WORLD"; "FOO"] 50 1070 80
  = [(50, 1070, "HELLO WORLD"); (50, 1150, "FOO")]
  /\ line_positions ["HELLO WORLD"; "FOO"] 50 1070 80 !! 1%nat
     = Some (50, 1070 + Z.of_nat 1 * 80, "FOO").
Proof.
  destruct (draw_lines_positions recording [] tt ["HELLO WORLD"; "FOO"] 50 1070 80)
    as (Hfold & _ & Hpos).
  split; [rewrite Hfold; reflexivity|].
  apply Hpos. reflexivity.
Defined.

(** X18. The caption block: when a generate request renders, the caption
    (upper-cased, "Default Text" when absent) is wrapped to 918 wide with
    the widths of the loaded font, each line is drawn at 50 across, and
    line number [i] of [n] is drawn [(n - i)] line heights above 1230, so
    that the block ends at 1230 however many lines there are. *)
Theorem render_caption_layout (env : collaborators) (req : request) (output : bytes) :
  render env req = Return output ->
  exists body (canvas : image env) (fnt : font env) positions,
    get_json req = Return body
    /\ truetype env FONT_PATH 80 = Return fnt
    /\ let lines := wrap_text (fun s => fst (textbbox env fnt s)) 918
                      (upper env (default "Default Text" (text body))) in
       let line_height := snd (textbbox env fnt "Ay") in
       output
       = save_jpeg env
           (fold_left
              (fun drawn p => draw_text env drawn (fst (fst p), snd (fst p)) (snd p) fnt)
              positions canvas) 90
       /\ length positions = length lines
       /\ forall (i : nat) (line : string),
            lines !! i = Some line ->
            positions !! i
            = Some (50, 1230 - (Z.of_nat (length lines) - Z.of_nat i) * line_height, line).
Proof.
  unfold render.
  destruct (get_json req) as [m|body]; cbn; [discriminate|].
  destruct (requests_get env (image_url body)) as [m|content]; cbn; [discriminate|].
  destruct (image_open env content "RGB") as [m|img]; cbn; [discriminate|].
  destruct (requests_get env (Some (default DEFAULT_LOGO_URL (logo_url body))))
    as [m|logo_content]; cbn; [discriminate|].
  destruct (image_open env logo_content "RGBA") as [m|logo]; cbn; [discriminate|].
  destruct (truetype env FONT_PATH 80) as [m|fnt]; cbn; [discriminate|].
  intros [= <-]. rewrite draw_lines_fold.
  eexists body, _, fnt, _. split; [reflexivity|]. split; [reflexivity|].
  cbn zeta. split; [reflexivity|]. split; [apply length_line_positions|].
  intros i line Hi. rewrite (lookup_line_positions _ _ _ _ _ _ Hi).
  do 3 f_equal. lia.
Qed.

Lemma render_caption_layout_witness :
  let req := {| get_json := Return {| image_url := Some "http://images.example/a.png";
                                      text := Some "HELLO WORLD FOO";
                                      logo_url := None |};
                host_url := "http://localhost:10000/" |} in
  render recording req = Return []
  /\ exists positions : list (Z * Z * string),
       length positions = 1%nat
       /\ positions !! 0%nat = Some (50, 1150, "HELLO WORLD FOO").
Proof.
  intros req.
  assert (Hrender : render recording req = Return []) by reflexivity.
  split; [exact Hrender|].
  destruct (render_caption_layout recording req [] Hrender)
    as (body & canvas & fnt & positions & Hbody & _ & _ & Hlen & Hpos).
  injection Hbody as <-. destruct fnt.
  exists positions. split; [exact Hlen|].
  exact (Hpos 0%nat "HELLO WORLD FOO" eq_refl).
Defined.

(** ** Sanity checks on concrete inputs *)

Example split_example :
  split "  HELLO   WORLD FOO " = ["HELLO"; "WORLD"; "FOO"].
Proof. reflexivity. Qed.

Example split_blank_example : split "   " = [].
Proof. reflexivity. Qed.

(** The scenario of the specification. *)
Example wrap_text_example :
  wrap_text (fun s => len s * 10) 139 "HELLO WORLD FOO"
  = ["HELLO WORLD"; "FOO"].
Proof. reflexivity. Qed.

(** A word wider than the limit is kept whole on a line of its own. *)
Example wrap_text_overflow_example :
  wrap_text (fun s => len s * 10) 139 "HELLO WORLD EXTRAORDINARILY LONG"
  = ["HELLO WORLD"; "EXTRAORDINARILY"; "LONG"].
Proof. reflexivity. Qed.

Example rstrip_example :
  rstrip "/" "http://localhost:10000//" = "http://localhost:10000".
Proof. reflexivity. Qed.

(** A generate request that goes through answers 200 with the retrieval
    address and stores the image for 60 time units. *)
Example edit_image_success_example :
  let req := {| get_json := Return {| image_url := Some "http://images.example/a.png";
                                      text := Some "hello world";
                                      logo_url := None |};
                host_url := "http://localhost:10000/" |} in
  edit_image online req "7f3c" (seconds 1000) ∅
  = (Jsonify 200 [("message", "Image generated successfully");
                  ("temp_image_url", "http://localhost:10000/temp_image/7f3c")],
     {["7f3c" := {| data := [Byte.x58]; expires_at := seconds 1060 |}]}).
Proof. by_ticks. Qed.

(** An identifier that was never stored is answered 404. *)
Example temp_image_unknown_example :
  temp_image "7f3c" (seconds 10) (seconds 10) ∅
  = (Abort 404 "Image not found or expired", ∅).
Proof. reflexivity. Qed.

(** Float sums as Python computes them: [2.0**55 + 60], the last float
    below [2**31] plus 60, and [0.1 + 60]. *)
Example float_add_far_example :
  float_add (seconds (2 ^ 55)) (seconds 60) = seconds (2 ^ 55 + 64).
Proof. by_ticks. Qed.

Example float_add_binade_example :
  float_add (dyadic (2 ^ 53 - 1) (-22)) (seconds 60) = seconds 2147483708.
Proof. by_ticks. Qed.

Example float_add_tenth_example :
  float_add (dyadic 3602879701896397 (-55)) (seconds 60)
  = dyadic 8458323050155213 (-47).
Proof. by_ticks. Qed.

(** Whole seconds up to [2^53] are floats; [2^53 + 1] is not. *)
Example is_float_example :
  is_float (seconds 1762214400) = true /\ is_float (seconds (2 ^ 53 + 1)) = false.
Proof. split; by_ticks. Qed.
